(** * A permission-guarded hierarchical store, verified against its source

    The development embeds the two TypeScript sources of the repository:
    [json-types.ts] (the JSON data model and [getAllPathFromJsonValue]) and the
    store module (the [Store] class with [read], [write], [entries] and
    [createInstance]).

    Stores are JavaScript objects: they are mutated in place and may be
    reachable through several entries.  They are therefore kept in a heap of
    store objects addressed by location, and every operation threads that heap
    explicitly.  A thrown [Error] leaves the heap as it was at the point of the
    throw, so what a failed call has or has not mutated is observable. *)

From Stdlib Require Import PrimFloat Ascii DecimalString.
From stdpp Require Import base strings list sets.

#[local] Set Warnings "-register-all".

(** ** Strings: [String.prototype.split], [Array.prototype.join], [includes] *)

(** [split sep s] is [s.split(sep)] for a one-character separator: the result
    always has at least one segment, and the segments may be empty. *)
Fixpoint split (sep : ascii) (s : string) : list string :=
  match s with
  | EmptyString => [EmptyString]
  | String c s' =>
      if Ascii.eqb c sep then EmptyString :: split sep s'
      else match split sep s' with
           | [] => [String c EmptyString]
           | part :: parts => String c part :: parts
           end
  end.

(** [join sep parts] is [parts.join(sep)]. *)
Fixpoint join (sep : ascii) (parts : list string) : string :=
  match parts with
  | [] => EmptyString
  | [part] => part
  | part :: parts' => part +:+ String sep (join sep parts')
  end.

(** [includes s searchString] is [s.includes(searchString)]. *)
Definition includes (s searchString : string) : bool :=
  match String.index 0 searchString s with
  | Some _ => true
  | None => false
  end.

(** [toString index] is [index.toString()] for an array index. *)
Definition toString (index : nat) : string :=
  NilEmpty.string_of_uint (Nat.to_uint index).

Definition colon : ascii := ":"%char.

(** ** [Map<string, V>]: insertion-ordered, one binding per key *)

Module JsMap.
Section Operations.
Context {V : Type}.

(** [get m key] is [m.get(key)], with [None] for JavaScript's [undefined]
    answer on a missing key. *)
Fixpoint get (m : list (string * V)) (key : string) : option V :=
  match m with
  | [] => None
  | (k, v) :: m' => if String.eqb k key then Some v else get m' key
  end.

(** [set m key value] is [m.set(key, value)]: an existing key keeps its
    position and takes the new value, a new key goes last. *)
Fixpoint set (m : list (string * V)) (key : string) (value : V)
  : list (string * V) :=
  match m with
  | [] => [(key, value)]
  | (k, v) :: m' =>
      if String.eqb k key then (key, value) :: m'
      else (k, v) :: set m' key value
  end.

(** [set_all src dst]: [src.forEach((value, key) => dst.set(key, value))]. *)
Definition set_all (src dst : list (string * V)) : list (string * V) :=
  fold_left (fun acc kv => set acc kv.1 kv.2) src dst.
End Operations.
End JsMap.

(** ** Plain objects: own properties in the order of enumeration *)

(** A plain object, as [entries()] builds one with [{}] and [result[key] =
    value], is the list of its own enumerable properties in the order in which
    [Object.keys], [for ... in] and [JSON.stringify] go through them: first
    the keys that are array indices, in ascending numeric order, then the
    other keys in the order of their creation.  The prototype of the object
    is not part of the list. *)
Module JsObject.

(** The array index that a key is: the key is the decimal numeral, without
    sign or leading zero, of an integer below [2^32 - 1]. *)
Definition array_index (key : string) : option N :=
  match NilEmpty.uint_of_string key with
  | Some digits =>
      let index := N.of_uint digits in
      if String.eqb (NilEmpty.string_of_uint (N.to_uint index)) key
         && (index <? 4294967295)%N
      then Some index
      else None
  | None => None
  end.

(** [precedes key k]: [key] is enumerated before [k] whichever was created
    first. *)
Definition precedes (key k : string) : bool :=
  match array_index key, array_index k with
  | Some i, Some j => (i <? j)%N
  | Some _, None => true
  | None, _ => false
  end.

Section Operations.
Context {V : Type}.

(** The object with a new own property [key]. *)
Fixpoint define (o : list (string * V)) (key : string) (value : V)
  : list (string * V) :=
  match o with
  | [] => [(key, value)]
  | (k, v) :: o' =>
      if precedes key k then (key, value) :: (k, v) :: o'
      else (k, v) :: define o' key value
  end.

(** [set o key value] is [o[key] = value] on an object made by [{}].  The
    key ["__proto__"] is the accessor inherited from [Object.prototype]: the
    assignment runs its setter, which makes no own property.  An own property
    takes the new value where it is; any other key becomes a new own
    property. *)
Definition set (o : list (string * V)) (key : string) (value : V)
  : list (string * V) :=
  if String.eqb key "__proto__" then o
  else match JsMap.get o key with
       | Some _ => JsMap.set o key value
       | None => define o key value
       end.
End Operations.
End JsObject.

(** ** json-types.ts *)

(** A JavaScript number is an IEEE 754 binary64 value. *)
Abbreviation number := float.

Inductive JSONPrimitive : Set :=
| JString (s : string)
| JNumber (n : number)
| JBoolean (b : bool)
| JNull.

(** An object is the list of its properties in enumeration order. *)
Inductive JSONValue : Set :=
| JPrimitive (p : JSONPrimitive)
| JArray (items : list JSONValue)
| JObject (fields : list (string * JSONValue)).

Abbreviation JSONObject := (list (string * JSONValue)).
Abbreviation PathValueMap := (list (string * JSONPrimitive)).

(** [getAllPathFromJsonValue obj currentPath] (json-types.ts, lines 14-39).
    The two inner loops are the [forEach] over an array, which carries the
    index, and the [for ... in] over an object. *)
Fixpoint getAllPathFromJsonValue (obj : JSONValue) (currentPath : list string)
  : PathValueMap :=
  match obj with
  | JPrimitive p => JsMap.set [] (join colon currentPath) p
  | JArray items =>
      (fix forEach (items : list JSONValue) (index : nat)
           (result : PathValueMap) : PathValueMap :=
         match items with
         | [] => result
         | item :: items' =>
             let newPath := currentPath ++ [toString index] in
             let subPaths := getAllPathFromJsonValue item newPath in
             forEach items' (S index) (JsMap.set_all subPaths result)
         end) items 0 []
  | JObject fields =>
      (fix forIn (fields : JSONObject) (result : PathValueMap) : PathValueMap :=
         match fields with
         | [] => result
         | (key, value) :: fields' =>
             let newPath := currentPath ++ [key] in
             let subPaths := getAllPathFromJsonValue value newPath in
             forIn fields' (JsMap.set_all subPaths result)
         end) fields []
  end.

(** ** The store module: data *)

(** [type Permission = "r" | "w" | "rw" | "none"], with the string each
    literal stands for. *)
Inductive Permission : Set := Perm_r | Perm_w | Perm_rw | Perm_none.

Definition literal (permission : Permission) : string :=
  match permission with
  | Perm_r => "r"
  | Perm_w => "w"
  | Perm_rw => "rw"
  | Perm_none => "none"
  end.

(** A store is referred to by its location in the heap. *)
Abbreviation loc := nat.

(** [type StoreResult = Store | JSONPrimitive | undefined]. *)
Inductive StoreResult : Set :=
| IsStore (store : loc)
| IsPrimitive (p : JSONPrimitive)
| IsUndefined.

(** What [storeEntries] holds: [StoreResult | (() => StoreResult)].  A function
    entry is embedded as a supplier without side effects, given by the result
    each call yields; a yielded store is a reference, so its contents are
    those of the heap at the time of the call. *)
Inductive Entry : Set :=
| Direct (result : StoreResult)
| Deferred (yields : StoreResult).

(** [type StoreValue = JSONObject | JSONArray | StoreResult | (() => StoreResult)].
    A JSON primitive is the [StoreResult] it is. *)
Inductive StoreValue : Set :=
| OfObject (fields : JSONObject)
| OfArray (items : list JSONValue)
| OfResult (result : StoreResult)
| OfFunction (yields : StoreResult).

Record Store : Set := mkStore {
  defaultPolicy : Permission;
  permissionMap : list (string * Permission);
  storeEntries : list (string * Entry)
}.

Abbreviation Heap := (list Store).

(** The four [Error]s the module throws, by message. *)
Inductive Error : Set :=
| NullPathForbidden
| PathIncorrect
| ReadAccessDenied (property : string)
| WriteAccessDenied (property : string).

(** The module throws plain [Error]s; the specification names two kinds of
    them, told apart by the message. *)
Inductive ErrorKind : Set := InvalidPathError | AccessDeniedError.

Definition kind (e : Error) : ErrorKind :=
  match e with
  | NullPathForbidden | PathIncorrect => InvalidPathError
  | ReadAccessDenied _ | WriteAccessDenied _ => AccessDeniedError
  end.

(** ** Computations over the heap that may throw *)

Inductive Outcome (A : Type) : Type :=
| Return (a : A)
| Throw (e : Error).
Arguments Return {A} a.
Arguments Throw {A} e.

Definition M (A : Type) : Type := Heap -> Heap * Outcome A.

Definition ret {A} (a : A) : M A := fun h => (h, Return a).

Definition throw {A} (e : Error) : M A := fun h => (h, Throw e).

Definition bind {A B} (m : M A) (k : A -> M B) : M B :=
  fun h =>
    match m h with
    | (h', Return a) => k a h'
    | (h', Throw e) => (h', Throw e)
    end.

Notation "'let*' x ':=' m 'in' k" := (bind m (fun x => k))
  (at level 10, x name, m at level 100, k at level 200).
Notation "m ';;' k" := (bind m (fun _ => k))
  (at level 100, k at level 200, right associativity).

(** [l.forEach(f)] for an effectful [f]: a throw ends the loop. *)
Fixpoint forEach {A} (l : list A) (f : A -> M unit) : M unit :=
  match l with
  | [] => ret tt
  | x :: l' => f x ;; forEach l' f
  end.

(** ** The store module: [class Store] *)

(** [new Store()]: the field initialisers give the policy ["rw"]; the
    constructor reads the permission metadata of [Store.prototype], which the
    [Restrict] decorator fills only for a class it decorates (its [target] is
    the prototype of that class), so for [Store] itself the table is empty. *)
Definition new_Store : Store :=
  {| defaultPolicy := Perm_rw; permissionMap := []; storeEntries := [] |}.

(** The object at a location.  Every reference of a heap built by the module
    is a location of the heap ([heap_wf] below); a location beyond it reads as
    a store without entries. *)
Definition deref (h : Heap) (this : loc) : Store := default new_Store (h !! this).

Definition getPermission (this : Store) (key : string) : Permission :=
  default (defaultPolicy this) (JsMap.get (permissionMap this) key).

Definition setPermission (this : Store) (key : string) (permission : Permission)
  : Store :=
  {| defaultPolicy := defaultPolicy this;
     permissionMap := JsMap.set (permissionMap this) key permission;
     storeEntries := storeEntries this |}.

Definition allowedToRead (this : Store) (key : string) : bool :=
  includes (literal (getPermission this key)) "r".

Definition allowedToWrite (this : Store) (key : string) : bool :=
  includes (literal (getPermission this key)) "w".

(** [this.storeEntries.get(key)]: a missing key answers [undefined]. *)
Definition storeEntries_get (this : Store) (key : string) : Entry :=
  default (Direct IsUndefined) (JsMap.get (storeEntries this) key).

(** [this.storeEntries.set(key, value)], in place. *)
Definition with_entry (key : string) (value : Entry) (this : Store) : Store :=
  {| defaultPolicy := defaultPolicy this;
     permissionMap := permissionMap this;
     storeEntries := JsMap.set (storeEntries this) key value |}.

Definition storeEntries_set (this : loc) (key : string) (value : Entry) : M unit :=
  fun h => (alter (with_entry key value) this h, Return tt).

(** [createInstance()] (lines 162-172).  The loop climbs the prototype chain
    of [this] until the next prototype is [Object.prototype], which leaves
    [current] at [Store.prototype] whatever the class of [this]; the result is
    [new Store()], a new object of the heap. *)
Definition createInstance (this : loc) : M loc :=
  fun h => (h ++ [new_Store], Return (length h)).

(** [value instanceof Store], with the store when it is one. *)
Definition as_Store (value : Entry) : option loc :=
  match value with
  | Direct (IsStore store) => Some store
  | _ => None
  end.

(** *** [read] (lines 78-102) *)

Fixpoint read_parts (h : Heap) (pathParts : list string) (this : loc)
  : Outcome StoreResult :=
  match pathParts with
  | [] => Return IsUndefined
  | [path] =>
      if negb (allowedToRead (deref h this) path)
      then Throw (ReadAccessDenied path)
      else match storeEntries_get (deref h this) path with
           | Deferred yields => Return yields
           | Direct entry => Return entry
           end
  | head :: rest =>
      match storeEntries_get (deref h this) head with
      | Direct (IsStore entry) => read_parts h rest entry
      | Deferred (IsStore functionResult) => read_parts h rest functionResult
      | _ => Throw PathIncorrect
      end
  end.

(** [path] is [None] for [null]. *)
Definition read (h : Heap) (this : loc) (path : option string)
  : Outcome StoreResult :=
  match path with
  | None => Throw NullPathForbidden
  | Some path => read_parts h (split colon path) this
  end.

(** *** [write] (lines 104-138) *)

(** [write] calls itself at line 118, on the remaining path and the same
    value, and at line 132, on the flattened paths of an object or array and
    their primitives.  The first recursion is on the parts of the path
    ([write_several] below relates it to the path); for the second the
    single-segment branch is the one of a primitive, [write_direct]. *)
Section write_parts.
(** The single-segment branch (lines 120-136), which depends on the value. *)
Variable write_entry : string -> loc -> M unit.

Fixpoint write_parts (pathParts : list string) (this : loc) : M unit :=
  match pathParts with
  | [] => ret tt
  | [path] => write_entry path this
  | head :: rest =>
      fun h =>
        (let* store :=
           match as_Store (storeEntries_get (deref h this) head) with
           | Some store => ret store
           | None =>
               if allowedToWrite (deref h this) head
               then createInstance this
               else throw (WriteAccessDenied head)
           end in
         write_parts rest store ;;
         storeEntries_set this head (Direct (IsStore store))) h
  end.
End write_parts.

(** The single-segment branch for a value that is stored as it is (line 126). *)
Definition write_direct (value : Entry) (path : string) (this : loc) : M unit :=
  fun h =>
    if negb (allowedToWrite (deref h this) path)
    then throw (WriteAccessDenied path) h
    else storeEntries_set this path value h.

(** [store.write(key, val)] for a primitive [val], as the expansion of an
    object or array calls it at line 132. *)
Definition write_primitive (this : loc) (path : string) (val : JSONPrimitive)
  : M unit :=
  write_parts (write_direct (Direct (IsPrimitive val))) (split colon path) this.

(** Lines 129-134: a fresh store is filled from the flattened value and then
    put under [path]. *)
Definition write_composite (value : JSONValue) (path : string) (this : loc)
  : M unit :=
  let* store := createInstance this in
  let pathValueMap := getAllPathFromJsonValue value [] in
  forEach pathValueMap (fun kv => write_primitive store kv.1 kv.2) ;;
  storeEntries_set this path (Direct (IsStore store)).

(** The single-segment branch for any value (lines 120-136). *)
Definition write_value (value : StoreValue) (path : string) (this : loc)
  : M unit :=
  fun h =>
    if negb (allowedToWrite (deref h this) path)
    then throw (WriteAccessDenied path) h
    else match value with
         | OfFunction yields => storeEntries_set this path (Deferred yields) h
         | OfResult result => storeEntries_set this path (Direct result) h
         | OfObject fields => write_composite (JObject fields) path this h
         | OfArray items => write_composite (JArray items) path this h
         end.

Definition write (this : loc) (path : option string) (value : StoreValue)
  : M StoreValue :=
  match path with
  | None => throw NullPathForbidden
  | Some path =>
      write_parts (write_value value) (split colon path) this ;;
      ret value
  end.

(** [writeEntries] (lines 140-144). *)
Definition writeEntries (this : loc) (entries : JSONObject) : M unit :=
  forEach entries (fun kv =>
    write this (Some kv.1)
      match kv.2 with
      | JPrimitive p => OfResult (IsPrimitive p)
      | JArray items => OfArray items
      | JObject fields => OfObject fields
      end ;; ret tt).

(** *** [entries] (lines 146-159) *)

(** JavaScript truthiness of a primitive: [""], [0], [-0], [NaN], [false] and
    [null] are falsy. *)
Definition truthy (p : JSONPrimitive) : bool :=
  match p with
  | JString s => negb (String.eqb s "")
  | JNumber n => negb (PrimFloat.eqb n 0%float || PrimFloat.is_nan n)
  | JBoolean b => b
  | JNull => false
  end.

(** The loop of [entries()] over [storeEntries] (lines 148-157), given what
    the call of [entries()] on a store returns and what the store allows to
    read.  [result] is the plain object of line 147, and each [result[key] =
    ...] is an assignment to it. *)
Section entries_forEach.
Variable entries_of : loc → option JSONObject.
Variable allowedToRead_key : string → bool.

Fixpoint entries_forEach (m : list (string * Entry)) (result : JSONObject)
  : option JSONObject :=
  match m with
  | [] => Some result
  | (key, value) :: m' =>
      if allowedToRead_key key then
        match value with
        | Direct (IsStore store) | Deferred (IsStore store) =>
            match entries_of store with
            | Some o => entries_forEach m' (JsObject.set result key (JObject o))
            | None => None
            end
        | Direct (IsPrimitive p) | Deferred (IsPrimitive p) =>
            if truthy p
            then entries_forEach m' (JsObject.set result key (JPrimitive p))
            else entries_forEach m' result
        | Direct IsUndefined | Deferred IsUndefined => entries_forEach m' result
        end
      else entries_forEach m' result
  end.
End entries_forEach.

(** [entries()] calls itself on the stores it meets; on a store that reaches
    itself the JavaScript recursion does not end.  [depth] bounds the nesting
    of calls, and [None] says the bound was reached. *)
Fixpoint entries (depth : nat) (h : Heap) (this : loc) : option JSONObject :=
  match depth with
  | 0 => None
  | S depth' =>
      entries_forEach (entries depth' h) (allowedToRead (deref h this))
        (storeEntries (deref h this)) []
  end.

(** *** [Restrict] (lines 25-51): the accessor it installs *)

(** The [set] accessor that the decorator defines for the property (lines
    35-48), run on the store [this] that is assigned to: a store, function,
    primitive, [null] or [undefined] goes into [storeEntries] as it is, an
    object or array is expanded into a new store as in [write].  No permission
    is looked at. *)
Definition Restrict_set (propertyKey : string) (newValue : StoreValue)
    (this : loc) : M unit :=
  match newValue with
  | OfResult result => storeEntries_set this propertyKey (Direct result)
  | OfFunction yields => storeEntries_set this propertyKey (Deferred yields)
  | OfObject fields => write_composite (JObject fields) propertyKey this
  | OfArray items => write_composite (JArray items) propertyKey this
  end.

(** * Vocabulary of the properties *)

(** [has_char c s]: the character occurs in the string. *)
Fixpoint has_char (c : ascii) (s : string) : bool :=
  match s with
  | EmptyString => false
  | String c' s' => Ascii.eqb c' c || has_char c s'
  end.

(** A JSON primitive as the value handed to [write]. *)
Definition primitive (p : JSONPrimitive) : StoreValue := OfResult (IsPrimitive p).

(** [entry()] for a function entry, the entry itself otherwise (lines 99-100). *)
Definition call (entry : Entry) : StoreResult :=
  match entry with
  | Deferred yields => yields
  | Direct result => result
  end.

(** What [entries()] puts under the key of a stored value: nothing
    ([Some None]) or a JSON value; [None] when the nested call reached the
    bound. *)
Definition assigned (entries_of : loc → option JSONObject) (value : Entry)
  : option (option JSONValue) :=
  match call value with
  | IsStore store =>
      match entries_of store with
      | Some o => Some (Some (JObject o))
      | None => None
      end
  | IsPrimitive p => Some (if truthy p then Some (JPrimitive p) else None)
  | IsUndefined => Some None
  end.

(** The store an entry resolves to on a [read] of several parts: the entry is
    a store, or a function that yields one (lines 84-93). *)
Definition resolves (entry : Entry) : option loc :=
  match entry with
  | Direct (IsStore store) | Deferred (IsStore store) => Some store
  | _ => None
  end.

(** The store reached from [this] through the given keys, each resolving to a
    store. *)
Fixpoint descend (h : Heap) (heads : list string) (this : loc) : option loc :=
  match heads with
  | [] => Some this
  | head :: heads' =>
      match resolves (storeEntries_get (deref h this) head) with
      | Some store => descend h heads' store
      | None => None
      end
  end.

(** Every store reference held by an entry is an object of the heap. *)
Definition heap_wf (h : Heap) : Prop :=
  ∀ l key store,
    as_Store (storeEntries_get (deref h l) key) = Some store → store < length h.

(** From location [n] on, the heap holds stores that allow every write and
    refer only to one another: new stores, filled but not yet put under a key
    of an older store. *)
Definition unattached (n : nat) (h : Heap) : Prop :=
  ∀ l, n ≤ l → l < length h →
    (∀ key, allowedToWrite (deref h l) key = true) ∧
    (∀ key store,
       as_Store (storeEntries_get (deref h l) key) = Some store →
       n ≤ store ∧ store < length h).

(** The stores of the heap that a [write] along [pathParts] goes through: it
    follows the entries that hold a store, and from the first part that does
    not, the stores are new ones. *)
Fixpoint visited (h : Heap) (pathParts : list string) (this : loc) : list loc :=
  match pathParts with
  | [] | [_] => [this]
  | head :: rest =>
      this ::
        match as_Store (storeEntries_get (deref h this) head) with
        | Some store => visited h rest store
        | None => []
        end
  end.

(** The store and key where a [write] along [pathParts] changes an entry of
    the heap it starts from: the last part in the last store when every part
    before it holds a store, and otherwise the first part that holds none,
    where the new store is attached. *)
Fixpoint final_step (h : Heap) (pathParts : list string) (this : loc)
  : loc * string :=
  match pathParts with
  | [] => (this, "")
  | [key] => (this, key)
  | head :: rest =>
      match as_Store (storeEntries_get (deref h this) head) with
      | Some store => final_step h rest store
      | None => (this, head)
      end
  end.

(** The stores and keys that the [write] goes through before that one. *)
Fixpoint earlier_steps (h : Heap) (pathParts : list string) (this : loc)
  : list (loc * string) :=
  match pathParts with
  | [] | [_] => []
  | head :: rest =>
      match as_Store (storeEntries_get (deref h this) head) with
      | Some store => (this, head) :: earlier_steps h rest store
      | None => []
      end
  end.

(** Every part of the path is writable in the store where [write] uses it, and
    the last part is readable in the last store.  The stores that [write]
    creates on the way are [new Store()]s, which allow both. *)
Fixpoint path_allowed (h : Heap) (pathParts : list string) (this : loc) : bool :=
  match pathParts with
  | [] => true
  | [key] =>
      allowedToWrite (deref h this) key && allowedToRead (deref h this) key
  | head :: rest =>
      allowedToWrite (deref h this) head &&
        match as_Store (storeEntries_get (deref h this) head) with
        | Some store => path_allowed h rest store
        | None => true
        end
  end.

(** The part at which a [write] along [pathParts] is denied, if there is one:
    the first part that holds no store, or the last part, when the store
    reached there does not allow writing it. *)
Fixpoint write_denied (h : Heap) (pathParts : list string) (this : loc)
  : option string :=
  match pathParts with
  | [] => None
  | [key] => if allowedToWrite (deref h this) key then None else Some key
  | head :: rest =>
      match as_Store (storeEntries_get (deref h this) head) with
      | Some store => write_denied h rest store
      | None => if allowedToWrite (deref h this) head then None else Some head
      end
  end.

(** The leaves of a JSON value, each with the object keys and decimal array
    indices that lead to it. *)
Fixpoint leaves (obj : JSONValue) : list (list string * JSONPrimitive) :=
  match obj with
  | JPrimitive p => [([], p)]
  | JArray items =>
      (fix of_items (items : list JSONValue) (index : nat) :=
         match items with
         | [] => []
         | item :: items' =>
             map (λ leaf, (toString index :: leaf.1, leaf.2)) (leaves item)
               ++ of_items items' (S index)
         end) items 0
  | JObject fields =>
      (fix of_fields (fields : JSONObject) :=
         match fields with
         | [] => []
         | (key, value) :: fields' =>
             map (λ leaf, (key :: leaf.1, leaf.2)) (leaves value)
               ++ of_fields fields'
         end) fields
  end.

(** The two loops of [getAllPathFromJsonValue] and of [leaves], by name. *)
Definition flatten_items (currentPath : list string)
  : list JSONValue → nat → PathValueMap → PathValueMap :=
  fix forEach items index result :=
    match items with
    | [] => result
    | item :: items' =>
        let newPath := currentPath ++ [toString index] in
        let subPaths := getAllPathFromJsonValue item newPath in
        forEach items' (S index) (JsMap.set_all subPaths result)
    end.

Definition flatten_fields (currentPath : list string)
  : JSONObject → PathValueMap → PathValueMap :=
  fix forIn fields result :=
    match fields with
    | [] => result
    | (key, value) :: fields' =>
        let newPath := currentPath ++ [key] in
        let subPaths := getAllPathFromJsonValue value newPath in
        forIn fields' (JsMap.set_all subPaths result)
    end.

Definition leaves_items
  : list JSONValue → nat → list (list string * JSONPrimitive) :=
  fix of_items items index :=
    match items with
    | [] => []
    | item :: items' =>
        map (λ leaf, (toString index :: leaf.1, leaf.2)) (leaves item)
          ++ of_items items' (S index)
    end.

Definition leaves_fields : JSONObject → list (list string * JSONPrimitive) :=
  fix of_fields fields :=
    match fields with
    | [] => []
    | (key, value) :: fields' =>
        map (λ leaf, (key :: leaf.1, leaf.2)) (leaves value) ++ of_fields fields'
    end.

(** Induction on a JSON value, with the property at hand for the items of an
    array and the values of an object. *)
Fixpoint JSONValue_nested_ind (P : JSONValue → Prop)
    (Hprimitive : ∀ p, P (JPrimitive p))
    (Harray : ∀ items, Forall P items → P (JArray items))
    (Hobject : ∀ fields, Forall (λ kv, P kv.2) fields → P (JObject fields))
    (obj : JSONValue) : P obj :=
  match obj with
  | JPrimitive p => Hprimitive p
  | JArray items =>
      Harray items
        ((fix all items : Forall P items :=
            match items with
            | [] => @List.Forall_nil _ P
            | item :: items' =>
                @List.Forall_cons _ P item items'
                  (JSONValue_nested_ind P Hprimitive Harray Hobject item)
                  (all items')
            end) items)
  | JObject fields =>
      Hobject fields
        ((fix all fields : Forall (λ kv, P kv.2) fields :=
            match fields with
            | [] => @List.Forall_nil _ (λ kv, P kv.2)
            | (key, value) :: fields' =>
                @List.Forall_cons _ (λ kv, P kv.2) (key, value) fields'
                  (JSONValue_nested_ind P Hprimitive Harray Hobject value)
                  (all fields')
            end) fields)
  end.

(** [heap_wf], as a check that runs. *)
Definition heap_wfb (h : Heap) : bool :=
  forallb
    (λ s, forallb
            (λ kv, match as_Store kv.2 with
                   | Some store => store <? length h
                   | None => true
                   end)
            (storeEntries s))
    h.

(** ** Vocabulary of the further properties *)

(** The [StoreValue] that a JSON value is, as [writeEntries] hands it to
    [write]. *)
Definition as_StoreValue (value : JSONValue) : StoreValue :=
  match value with
  | JPrimitive p => OfResult (IsPrimitive p)
  | JArray items => OfArray items
  | JObject fields => OfObject fields
  end.

(** What a single-part [write] of the value in the heap [h] puts under the
    key: the value, or the new store that an object or array is expanded
    into. *)
Definition stored (value : StoreValue) (h : Heap) : Entry :=
  match value with
  | OfResult result => Direct result
  | OfFunction yields => Deferred yields
  | OfObject _ | OfArray _ => Direct (IsStore (length h))
  end.

(** The ways the module changes a heap: it adds a [new Store()], and it sets
    an entry of a store. *)
Inductive mutates : Heap → Heap → Prop :=
| mutates_refl h : mutates h h
| mutates_new h h' : mutates (h ++ [new_Store]) h' → mutates h h'
| mutates_set h h' this key value :
    mutates (alter (with_entry key value) this h) h' → mutates h h'.

(** Two heaps with the same number of stores, and the same stores from
    location [n] on. *)
Definition same_from (n : nat) (h1 h2 : Heap) : Prop :=
  length h1 = length h2 ∧ ∀ l, n ≤ l → h1 !! l = h2 !! l.

(** The leaves of a JSON value under their flattened paths, in the order of
    enumeration. *)
Definition leaf_paths (obj : JSONValue) (currentPath : list string)
  : list (string * JSONPrimitive) :=
  map (λ leaf, (join colon (currentPath ++ leaf.1), leaf.2)) (leaves obj).

(** The keys are in the order in which an object enumerates them: no key
    comes after one that it precedes.  The properties of an object, as
    [Object.entries] lists them, are in that order. *)
Fixpoint enumerated (keys : list string) : bool :=
  match keys with
  | [] => true
  | k :: keys' =>
      forallb (λ k', negb (JsObject.precedes k' k)) keys' && enumerated keys'
  end.

(** The keys that are no array indices. *)
Definition string_keys (keys : list string) : list string :=
  filter (λ k, JsObject.array_index k = None) keys.

(** The properties with a truthy value and a key other than ["__proto__"]. *)
Definition truthy_properties (entries : list (string * JSONPrimitive))
  : JSONObject :=
  map (λ kv, (kv.1, JPrimitive kv.2))
    (filter (λ kv, truthy kv.2 = true ∧ kv.1 ≠ "__proto__") entries).

(** * Properties *)

(** ** Paths: [split] and [join] *)

Lemma split_not_nil sep s : split sep s ≠ [].
Proof.
  destruct s as [|c s]; simpl; [done|].
  destruct (Ascii.eqb c sep); [done|]. by destruct (split sep s).
Qed.

Lemma split_free sep s : has_char sep s = false → split sep s = [s].
Proof.
  induction s as [|c s IH]; simpl; [done|].
  destruct (Ascii.eqb c sep); simpl; [done|].
  intros Hs. by rewrite IH.
Qed.

Lemma split_parts_free sep s : Forall (λ p, has_char sep p = false) (split sep s).
Proof.
  induction s as [|c s IH]; simpl; [by repeat constructor|].
  destruct (Ascii.eqb c sep) eqn:Hc; [by constructor|].
  destruct (split sep s) as [|p ps]; [by repeat constructor; simpl; rewrite Hc|].
  inversion_clear IH. constructor; [|done]. simpl. by rewrite Hc.
Qed.

Lemma split_append sep p s :
  has_char sep p = false → split sep (p +:+ String sep s) = p :: split sep s.
Proof.
  induction p as [|c p IH]; simpl.
  - intros _. by rewrite Ascii.eqb_refl.
  - destruct (Ascii.eqb c sep); simpl; [done|]. intros Hp. by rewrite (IH Hp).
Qed.

Lemma split_join sep parts :
  parts ≠ [] → Forall (λ p, has_char sep p = false) parts →
  split sep (join sep parts) = parts.
Proof.
  induction parts as [|p [|q ps] IH]; intros Hne Hfree; [done| |].
  - simpl. apply split_free. by inversion_clear Hfree.
  - inversion_clear Hfree as [|? ? Hp Hps].
    change (join sep (p :: q :: ps)) with (p +:+ String sep (join sep (q :: ps))).
    rewrite (split_append _ _ _ Hp). f_equal. by apply IH.
Qed.

Lemma join_split sep s : join sep (split sep s) = s.
Proof.
  induction s as [|c s IH]; simpl; [done|].
  destruct (Ascii.eqb c sep) eqn:Hc.
  - apply Ascii.eqb_eq in Hc as ->.
    pose proof (split_not_nil sep s).
    destruct (split sep s) as [|p ps] eqn:Hs; [done|].
    change (join sep ("" :: p :: ps)) with (String sep (join sep (p :: ps))).
    by rewrite IH.
  - destruct (split sep s) as [|p [|q ps]] eqn:Hs; simpl in *; by subst.
Qed.

(** When a path has a single part, that part is the path: the single-segment
    branches of [read] and [write] use [path] where the model uses the part. *)
Lemma split_single sep s p : split sep s = [p] → p = s.
Proof. intros Hs. by rewrite <- (join_split sep s), Hs. Qed.

(** The remaining path [pathParts.slice(1).join(':')] splits to the remaining
    parts: recursion on the parts is the source's recursion on the path. *)
Lemma split_rest path head rest :
  split colon path = head :: rest → rest ≠ [] →
  split colon (join colon rest) = rest.
Proof.
  intros Hs Hne. apply split_join; [done|].
  pose proof (split_parts_free colon path) as Hfree.
  rewrite Hs in Hfree. by inversion_clear Hfree.
Qed.

(** ** Maps *)

Section JsMap_facts.
Context {V : Type}.
Implicit Types (m : list (string * V)) (k : string) (v : V).

Lemma get_set_eq m k v : JsMap.get (JsMap.set m k v) k = Some v.
Proof.
  induction m as [|[k' v'] m IH]; simpl.
  - by rewrite String.eqb_refl.
  - destruct (String.eqb k' k) eqn:Hk; simpl.
    + by rewrite String.eqb_refl.
    + by rewrite Hk.
Qed.

Lemma get_set_ne m k k' v :
  k ≠ k' → JsMap.get (JsMap.set m k v) k' = JsMap.get m k'.
Proof.
  intros Hne. induction m as [|[k0 v0] m IH]; simpl.
  - by apply String.eqb_neq in Hne as ->.
  - destruct (String.eqb k0 k) eqn:Hk; simpl.
    + apply String.eqb_eq in Hk as ->.
      by apply String.eqb_neq in Hne as ->.
    + by rewrite IH.
Qed.

(** Setting a key to the value it has changes nothing, position included. *)
Lemma set_same m k v : JsMap.get m k = Some v → JsMap.set m k v = m.
Proof.
  induction m as [|[k0 v0] m IH]; simpl; [done|].
  destruct (String.eqb k0 k) eqn:Hk.
  - apply String.eqb_eq in Hk as ->. by intros [= ->].
  - intros Hm. by rewrite IH.
Qed.
Lemma get_In m k v : JsMap.get m k = Some v → ∃ k', In (k', v) m.
Proof.
  induction m as [|[k0 v0] m IH]; simpl; [done|].
  destruct (String.eqb k0 k).
  - intros [= ->]. exists k0. by left.
  - intros [k' Hin]%IH. exists k'. by right.
Qed.
End JsMap_facts.

(** ** The heap *)

Section heap_facts.
Implicit Types (h : Heap) (this l : loc) (f : Store → Store).

Lemma deref_lookup h h' l : h' !! l = h !! l → deref h' l = deref h l.
Proof. unfold deref. by intros ->. Qed.

Lemma deref_alter_eq h this f :
  this < length h → deref (alter f this h) this = f (deref h this).
Proof.
  intros Hlt. unfold deref. rewrite list_lookup_alter_eq.
  destruct (lookup_lt_is_Some_2 h this Hlt) as [s ->]. done.
Qed.

Lemma deref_alter_ne h this l f :
  this ≠ l → deref (alter f this h) l = deref h l.
Proof. intros Hne. apply deref_lookup. by apply list_lookup_alter_ne. Qed.

Lemma deref_app_l h k l : l < length h → deref (h ++ k) l = deref h l.
Proof. intros Hlt. apply deref_lookup. by apply lookup_app_l. Qed.

Lemma deref_new h s : deref (h ++ [s]) (length h) = s.
Proof. unfold deref. by rewrite list_lookup_middle. Qed.

Lemma deref_dangling h l : length h ≤ l → deref h l = new_Store.
Proof. intros Hge. unfold deref. by rewrite lookup_ge_None_2. Qed.

(** An update that does not change the object does not change the heap. *)
Lemma alter_fixed h this f : f (deref h this) = deref h this → alter f this h = h.
Proof.
  intros Hf. apply list_eq. intros l.
  destruct (decide (this = l)) as [<-|Hne]; [|by apply list_lookup_alter_ne].
  rewrite list_lookup_alter_eq. unfold deref in Hf.
  destruct (h !! this) as [s|]; simpl in *; by rewrite ?Hf.
Qed.
End heap_facts.

(** ** Stores *)

Section store_facts.
Implicit Types (s : Store) (key : string) (value : Entry).

Lemma allowedToRead_with_entry s key value k :
  allowedToRead (with_entry key value s) k = allowedToRead s k.
Proof. done. Qed.

Lemma allowedToWrite_with_entry s key value k :
  allowedToWrite (with_entry key value s) k = allowedToWrite s k.
Proof. done. Qed.

Lemma get_with_entry_eq s key value :
  storeEntries_get (with_entry key value s) key = value.
Proof. unfold storeEntries_get. simpl. by rewrite get_set_eq. Qed.

Lemma get_with_entry_ne s key value k :
  key ≠ k → storeEntries_get (with_entry key value s) k = storeEntries_get s k.
Proof. intros Hne. unfold storeEntries_get. simpl. by rewrite get_set_ne. Qed.

Lemma as_Store_Some value store :
  as_Store value = Some store ↔ value = Direct (IsStore store).
Proof. destruct value as [[]|]; simpl; naive_solver. Qed.

(** Putting back the store that is already under a key (line 119, when the
    head did hold a store) leaves the object as it is. *)
Lemma with_entry_same s key store :
  as_Store (storeEntries_get s key) = Some store →
  with_entry key (Direct (IsStore store)) s = s.
Proof.
  rewrite as_Store_Some.
  unfold storeEntries_get, with_entry. destruct s as [d p es]; simpl.
  destruct (JsMap.get es key) as [e|] eqn:He; simpl; [|done].
  intros ->. by rewrite (set_same _ _ _ He).
Qed.

Lemma new_Store_allowedToWrite key : allowedToWrite new_Store key = true.
Proof. done. Qed.

Lemma new_Store_allowedToRead key : allowedToRead new_Store key = true.
Proof. done. Qed.

Lemma new_Store_get key : storeEntries_get new_Store key = Direct IsUndefined.
Proof. done. Qed.

(** A policy allows what its literal includes. *)
Lemma allowedToRead_policy s key :
  allowedToRead s key = true ↔
  getPermission s key = Perm_r ∨ getPermission s key = Perm_rw.
Proof.
  unfold allowedToRead. destruct (getPermission s key); cbv; intuition congruence.
Qed.

Lemma allowedToWrite_policy s key :
  allowedToWrite s key = true ↔
  getPermission s key = Perm_w ∨ getPermission s key = Perm_rw.
Proof.
  unfold allowedToWrite. destruct (getPermission s key); cbv; intuition congruence.
Qed.
End store_facts.

Lemma heap_wfb_wf h : heap_wfb h = true → heap_wf h.
Proof.
  intros Hb l key store. unfold deref.
  destruct (h !! l) as [s|] eqn:Hl; simpl; [|done].
  unfold storeEntries_get.
  destruct (JsMap.get (storeEntries s) key) as [e|] eqn:Hg; simpl; [|done].
  destruct (get_In _ _ _ Hg) as [k' Hin]. intros He.
  apply list_elem_of_lookup_2, list_elem_of_In in Hl.
  unfold heap_wfb in Hb. rewrite forallb_forall in Hb.
  specialize (Hb s Hl). rewrite forallb_forall in Hb.
  specialize (Hb (k', e) Hin). simpl in Hb. rewrite He in Hb.
  by apply Nat.ltb_lt.
Qed.

(** ** [read] and [write] follow the source's recursion on the path *)

Lemma read_parts_cons h head rest this :
  rest ≠ [] →
  read_parts h (head :: rest) this =
    match storeEntries_get (deref h this) head with
    | Direct (IsStore entry) => read_parts h rest entry
    | Deferred (IsStore functionResult) => read_parts h rest functionResult
    | _ => Throw PathIncorrect
    end.
Proof. by destruct rest. Qed.

Lemma write_parts_cons write_entry head rest this h :
  rest ≠ [] →
  write_parts write_entry (head :: rest) this h =
    (let* store :=
       match as_Store (storeEntries_get (deref h this) head) with
       | Some store => ret store
       | None =>
           if allowedToWrite (deref h this) head
           then createInstance this
           else throw (WriteAccessDenied head)
       end in
     write_parts write_entry rest store ;;
     storeEntries_set this head (Direct (IsStore store))) h.
Proof. by destruct rest. Qed.

(** Lines 81-94: on a path of several parts, [read] goes on with
    [pathParts.slice(1).join(':')] in the store under the first part. *)
Lemma read_several h this path head rest :
  split colon path = head :: rest → rest ≠ [] →
  read h this (Some path) =
    match storeEntries_get (deref h this) head with
    | Direct (IsStore entry) => read h entry (Some (join colon rest))
    | Deferred (IsStore functionResult) =>
        read h functionResult (Some (join colon rest))
    | _ => Throw PathIncorrect
    end.
Proof.
  intros Hs Hne. unfold read.
  rewrite (split_rest _ _ _ Hs Hne), Hs. by apply read_parts_cons.
Qed.

(** Lines 95-101: on a path of one part, the part is [path]. *)
Lemma read_single h this path :
  split colon path = [path] →
  read h this (Some path) =
    if negb (allowedToRead (deref h this) path)
    then Throw (ReadAccessDenied path)
    else match storeEntries_get (deref h this) path with
         | Deferred yields => Return yields
         | Direct entry => Return entry
         end.
Proof. intros Hs. unfold read. by rewrite Hs. Qed.

(** Lines 107-119: on a path of several parts, [write] goes on with
    [pathParts.slice(1).join(':')] in the store under the first part, or in a
    new one, and then puts that store under the first part. *)
Lemma write_several this path value head rest h :
  split colon path = head :: rest → rest ≠ [] →
  write this (Some path) value h =
    (let* store :=
       match as_Store (storeEntries_get (deref h this) head) with
       | Some store => ret store
       | None =>
           if allowedToWrite (deref h this) head
           then createInstance this
           else throw (WriteAccessDenied head)
       end in
     write store (Some (join colon rest)) value ;;
     storeEntries_set this head (Direct (IsStore store)) ;;
     ret value) h.
Proof.
  intros Hs Hne. unfold write.
  rewrite (split_rest _ _ _ Hs Hne), Hs.
  unfold bind at 1. rewrite (write_parts_cons _ _ _ _ _ Hne).
  unfold bind.
  destruct (as_Store (storeEntries_get (deref h this) head)) as [store|];
    [|destruct (allowedToWrite (deref h this) head)]; simpl; try done;
    match goal with
    | |- context [write_parts ?w ?r ?s ?h0] =>
        by destruct (write_parts w r s h0) as [? [[]|]]
    end.
Qed.

(** Line 132: the [write] of a primitive is [write_primitive]. *)
Lemma write_of_primitive this path val h :
  write this (Some path) (OfResult (IsPrimitive val)) h =
    (write_primitive this path val ;; ret (OfResult (IsPrimitive val))) h.
Proof. done. Qed.

(** ** Rejected calls *)

(** C8 (null path).  On every heap, for every store and value, [read(null)]
    and [write(null, v)] throw the error of an invalid path, and the heap after
    the failed [write] is the heap before it: nothing was mutated. *)
Theorem null_path_rejected (h : Heap) (this : loc) (value : StoreValue) :
  read h this None = Throw NullPathForbidden ∧
  write this None value h = (h, Throw NullPathForbidden) ∧
  kind NullPathForbidden = InvalidPathError.
Proof. done. Qed.

(** C6 (denied write).  When the policy that a key resolves to is ["r"],
    [write] of any value on that key throws the access error, and the heap
    after the call is the heap before it: entries, permission overrides and
    default policy of every store are as they were. *)
Theorem denied_write_changes_nothing
    (h : Heap) (this : loc) (p : string) (value : StoreValue) :
  split colon p = [p] →
  getPermission (deref h this) p = Perm_r →
  write this (Some p) value h = (h, Throw (WriteAccessDenied p)) ∧
  kind (WriteAccessDenied p) = AccessDeniedError.
Proof.
  intros Hp Hperm. split; [|done].
  unfold write, bind. rewrite Hp. simpl. unfold write_value.
  assert (allowedToWrite (deref h this) p = false) as ->; [|done].
  unfold allowedToWrite. by rewrite Hperm.
Qed.

Lemma denied_write_changes_nothing_witness :
  let h := [mkStore Perm_rw [("k", Perm_r)] [("k", Direct (IsPrimitive JNull))]] in
  write 0 (Some "k") (primitive (JBoolean true)) h
    = (h, Throw (WriteAccessDenied "k")) ∧
  kind (WriteAccessDenied "k") = AccessDeniedError.
Proof.
  exact (denied_write_changes_nothing
           [mkStore Perm_rw [("k", Perm_r)] [("k", Direct (IsPrimitive JNull))]]
           0 "k" (primitive (JBoolean true)) eq_refl eq_refl).
Defined.

(** C7 (invalid traversal).  A [read] on a path of several parts throws the
    error of an invalid path whenever the entry under the first part is
    neither a store nor a function yielding a store; in particular, once
    [write("a", 1)] has returned, [read("a:b")] throws it. *)
Theorem invalid_traversal :
  (∀ (h : Heap) (this : loc) (path : string),
     1 < length (split colon path) →
     resolves (storeEntries_get (deref h this) (hd "" (split colon path))) = None →
     read h this (Some path) = Throw PathIncorrect) ∧
  kind PathIncorrect = InvalidPathError ∧
  (∀ (h h' : Heap) (this : loc) (value : StoreValue),
     write this (Some "a") (primitive (JNumber 1)) h = (h', Return value) →
     read h' this (Some "a:b") = Throw PathIncorrect).
Proof.
  split_and!; [|done|].
  - intros h this path Hlen Hres. unfold read.
    destruct (split colon path) as [|head [|part rest]]; simpl in *; [lia..|].
    by destruct (storeEntries_get (deref h this) head) as [[]|[]].
  - intros h h' this value. unfold write, bind. simpl. unfold write_value.
    destruct (allowedToWrite (deref h this) "a"); simpl; [|done].
    intros [= <- _].
    destruct (decide (this < length h)) as [Hlt|Hge].
    + rewrite (deref_alter_eq _ _ _ Hlt). by rewrite get_with_entry_eq.
    + rewrite deref_dangling; [done|]. rewrite length_alter. lia.
Qed.

Lemma invalid_traversal_witness :
  read [mkStore Perm_rw [] [("a", Direct (IsPrimitive (JNumber 1)))]] 0 (Some "a:b")
    = Throw PathIncorrect ∧
  read (write 0 (Some "a") (primitive (JNumber 1)) [new_Store]).1 0 (Some "a:b")
    = Throw PathIncorrect.
Proof.
  split.
  - apply (proj1 invalid_traversal); [simpl; lia | reflexivity].
  - apply (proj2 (proj2 invalid_traversal)
             [new_Store] _ 0 (primitive (JNumber 1))).
    reflexivity.
Defined.

(** ** [read] on a path of several parts *)

Lemma read_parts_descend h heads key :
  ∀ this terminal,
    descend h heads this = Some terminal →
    read_parts h (heads ++ [key]) this = read_parts h [key] terminal.
Proof.
  induction heads as [|head heads IH]; intros this terminal; simpl.
  - by intros [= ->].
  - intros Hd.
    change (read_parts h (head :: heads ++ [key]) this
            = read_parts h [key] terminal).
    rewrite read_parts_cons; [|by destruct heads].
    destruct (storeEntries_get (deref h this) head) as [[store| |]|[store| |]];
      simpl in Hd; try done; by apply IH.
Qed.

(** C5 (the head key's permission is not consulted).  On a path of several
    parts whose head resolves to a store, directly or through a function,
    [read] is the [read] of the remaining path in that store, whatever the
    policy of the head key.  When the parts before the last each resolve to a
    store, [read] is therefore the single-part [read] of the last part at the
    store reached: it returns what the entry there gives when that store
    allows reading the last part, and throws the access error when it does
    not.  No permission of an earlier part enters the result, so the [read]
    succeeds also where the store denies reading its head key. *)
Theorem head_permission_not_consulted :
  (∀ (h : Heap) (this child : loc) (path head : string) (rest : list string),
     split colon path = head :: rest →
     rest ≠ [] →
     resolves (storeEntries_get (deref h this) head) = Some child →
     read h this (Some path) = read h child (Some (join colon rest))) ∧
  (∀ (h : Heap) (this terminal : loc) (path key : string) (heads : list string),
     split colon path = heads ++ [key] →
     heads ≠ [] →
     descend h heads this = Some terminal →
     read h this (Some path) = read h terminal (Some key) ∧
     read h this (Some path) =
       if allowedToRead (deref h terminal) key
       then Return (call (storeEntries_get (deref h terminal) key))
       else Throw (ReadAccessDenied key)).
Proof.
  split.
  - intros h this child path head rest Hs Hne Hres.
    rewrite (read_several _ _ _ _ _ Hs Hne).
    by destruct (storeEntries_get (deref h this) head) as [[]|[]];
      simplify_eq/=.
  - intros h this terminal path key heads Hs Hne Hd.
    assert (split colon key = [key]) as Hkey.
    { apply split_free. pose proof (split_parts_free colon path) as Hfree.
      rewrite Hs in Hfree. apply Forall_app in Hfree as [_ Hfree].
      by inversion_clear Hfree. }
    assert (read h this (Some path) = read_parts h [key] terminal) as ->.
    { unfold read. rewrite Hs. by apply read_parts_descend. }
    split; [unfold read; by rewrite Hkey|].
    simpl. destruct (allowedToRead (deref h terminal) key); simpl; [|done].
    by destruct (storeEntries_get (deref h terminal) key).
Qed.

Lemma head_permission_not_consulted_witness :
  let h := [mkStore Perm_none [] [("a", Deferred (IsStore 1))];
            mkStore Perm_rw [] [("b", Direct (IsPrimitive (JNumber 7)))]] in
  allowedToRead (deref h 0) "a" = false ∧
  read h 0 (Some "a:b") = read h 1 (Some "b") ∧
  read h 0 (Some "a:b") = Return (IsPrimitive (JNumber 7)).
Proof.
  intros h. split_and!; [reflexivity| |].
  - apply (proj1 head_permission_not_consulted h 0 1 "a:b" "a" ["b"]);
      [reflexivity | discriminate | reflexivity].
  - refine (proj2 (proj2 head_permission_not_consulted
                     h 0 1 "a:b" "b" ["a"] _ _ _));
      [reflexivity | discriminate | reflexivity].
Defined.

(** ** Sequencing *)

Lemma bind_Return {A B} (m : M A) (k : A → M B) h h1 a :
  m h = (h1, Return a) → bind m k h = k a h1.
Proof. unfold bind. by intros ->. Qed.

Lemma bind_Throw {A B} (m : M A) (k : A → M B) h h1 e :
  m h = (h1, Throw e) → bind m k h = (h1, Throw e).
Proof. unfold bind. by intros ->. Qed.

(** ** Writes into new stores *)

Lemma unattached_new n h : unattached n h → unattached n (h ++ [new_Store]).
Proof.
  intros Hun l Hl1 Hl2. rewrite length_app in *. simpl in *.
  destruct (decide (l < length h)) as [Hlt|Hge].
  - rewrite deref_app_l by done. destruct (Hun l Hl1 Hlt) as [Hw Hr].
    split; [done|]. intros key store Hs. destruct (Hr _ _ Hs). lia.
  - assert (l = length h) as -> by lia. rewrite deref_new. by split.
Qed.

Lemma unattached_with_entry n h this key value :
  unattached n h →
  (∀ store, as_Store value = Some store → n ≤ store ∧ store < length h) →
  unattached n (alter (with_entry key value) this h).
Proof.
  intros Hun Hv l Hl1 Hl2. rewrite length_alter in *.
  destruct (Hun l Hl1 Hl2) as [Hw Hr].
  destruct (decide (this = l)) as [->|Hne]; [|by rewrite deref_alter_ne].
  rewrite deref_alter_eq by done. split; [done|]. intros key' store.
  destruct (decide (key = key')) as [<-|Hk].
  - rewrite get_with_entry_eq. apply Hv.
  - rewrite get_with_entry_ne by done. apply Hr.
Qed.

(** In stores that are not attached yet, the [write] of a primitive returns,
    whatever the path, and touches none of the older objects. *)
Lemma write_parts_unattached n val pathParts :
  ∀ h this,
    n ≤ this → this < length h → unattached n h →
    ∃ h',
      write_parts (write_direct (Direct (IsPrimitive val))) pathParts this h
        = (h', Return tt) ∧
      take n h' = take n h ∧ unattached n h' ∧ length h ≤ length h'.
Proof.
  induction pathParts as [|head rest IH]; intros h this Hn Hlt Hun.
  { by exists h. }
  destruct (Hun this Hn Hlt) as [Hw Hr].
  destruct (decide (rest = [])) as [->|Hne].
  - simpl. unfold write_direct. rewrite Hw. simpl. eexists.
    split_and!; [done|by apply take_alter_ge| |by rewrite length_alter].
    by apply unattached_with_entry.
  - rewrite write_parts_cons by done. unfold bind.
    destruct (as_Store (storeEntries_get (deref h this) head))
      as [store|] eqn:He; simpl.
    + destruct (Hr _ _ He) as [Hs1 Hs2].
      destruct (IH h store Hs1 Hs2 Hun) as (h1 & -> & Ht & Hun1 & Hlen).
      simpl. eexists.
      split_and!; [done| | |rewrite length_alter; lia].
      * by rewrite take_alter_ge.
      * apply unattached_with_entry; [done|]. intros ? [= <-]. lia.
    + rewrite Hw. simpl.
      destruct (IH (h ++ [new_Store]) (length h)) as (h1 & -> & Ht & Hun1 & Hlen).
      { lia. } { rewrite length_app. simpl. lia. } { by apply unattached_new. }
      rewrite length_app in Hlen. simpl in *. eexists.
      split_and!; [done| | |rewrite length_alter; lia].
      * rewrite take_alter_ge, Ht by done. apply take_app_le. lia.
      * apply unattached_with_entry; [done|]. intros ? [= <-]. lia.
Qed.

Lemma forEach_write_primitive_unattached n store pathValueMap :
  ∀ h,
    n ≤ store → store < length h → unattached n h →
    ∃ h',
      forEach pathValueMap (λ kv, write_primitive store kv.1 kv.2) h
        = (h', Return tt) ∧
      take n h' = take n h ∧ unattached n h' ∧ length h ≤ length h'.
Proof.
  induction pathValueMap as [|[key val] m IH]; intros h Hn Hlt Hun.
  { by exists h. }
  simpl. unfold bind. unfold write_primitive at 1.
  destruct (write_parts_unattached n val (split colon key) h store Hn Hlt Hun)
    as (h1 & -> & Ht1 & Hun1 & Hlen1).
  destruct (IH h1 Hn ltac:(lia) Hun1) as (h2 & -> & Ht2 & Hun2 & Hlen2).
  exists h2. split_and!; [done|congruence|done|lia].
Qed.

(** The expansion of an object or array (lines 129-134) always returns: it
    fills a new store, which denies nothing, and then attaches it. *)
Lemma write_composite_returns value path this h :
  ∃ h1,
    write_composite value path this h
      = (alter (with_entry path (Direct (IsStore (length h)))) this h1, Return tt) ∧
    take (length h) h1 = h ∧ length h < length h1.
Proof.
  unfold write_composite, bind. simpl.
  destruct (forEach_write_primitive_unattached (length h) (length h)
              (getAllPathFromJsonValue value []) (h ++ [new_Store]))
    as (h1 & -> & Ht & _ & Hlen).
  { done. } { rewrite length_app. simpl. lia. }
  { intros l Hl1 Hl2. rewrite length_app in Hl2. simpl in Hl2.
    assert (l = length h) as -> by lia. by rewrite deref_new. }
  rewrite length_app in Hlen. simpl in *.
  exists h1. split_and!; [done| |lia].
  by rewrite Ht, take_app_length.
Qed.

Lemma write_value_allowed value path this h :
  allowedToWrite (deref h this) path = true →
  ∃ h', write_value value path this h = (h', Return tt).
Proof.
  intros Hw. unfold write_value. rewrite Hw. simpl.
  destruct value as [fields|items|result|yields]; try by eexists.
  - destruct (write_composite_returns (JObject fields) path this h)
      as (h1 & -> & _). by eexists.
  - destruct (write_composite_returns (JArray items) path this h)
      as (h1 & -> & _). by eexists.
Qed.

Lemma write_value_Throw value path this h h' e :
  write_value value path this h = (h', Throw e) → h' = h.
Proof.
  unfold write_value.
  destruct (allowedToWrite (deref h this) path) eqn:Hw; simpl.
  - destruct (write_value_allowed value path this h Hw) as [h1 Hret].
    unfold write_value in Hret. rewrite Hw in Hret. simpl in Hret.
    by rewrite Hret.
  - by intros [= <- _].
Qed.

(** ** A [write] that throws *)

Section write_parts_Throw.
Variable write_entry : string → loc → M unit.
Hypothesis entry_Throw :
  ∀ path this h h' e, write_entry path this h = (h', Throw e) → h' = h.
Hypothesis entry_allowed :
  ∀ path this h,
    allowedToWrite (deref h this) path = true →
    ∃ h', write_entry path this h = (h', Return tt).

(** From a new store on, every part of the path gets a new store: nothing
    denies the write. *)
Lemma write_parts_new pathParts :
  ∀ h this,
    deref h this = new_Store →
    ∃ h', write_parts write_entry pathParts this h = (h', Return tt).
Proof.
  induction pathParts as [|head rest IH]; intros h this Hnew.
  { by exists h. }
  destruct (decide (rest = [])) as [->|Hne].
  - simpl. apply entry_allowed. by rewrite Hnew.
  - rewrite write_parts_cons by done. unfold bind. rewrite Hnew. simpl.
    destruct (IH (h ++ [new_Store]) (length h) (deref_new _ _)) as [h1 ->].
    simpl. by eexists.
Qed.

(** The throws of [write] all come before its first mutation. *)
Lemma write_parts_Throw pathParts :
  ∀ h this h' e,
    write_parts write_entry pathParts this h = (h', Throw e) → h' = h.
Proof.
  induction pathParts as [|head rest IH]; intros h this h' e; [done|].
  destruct (decide (rest = [])) as [->|Hne]; [by apply entry_Throw|].
  rewrite write_parts_cons by done. unfold bind.
  destruct (as_Store (storeEntries_get (deref h this) head)) as [store|]; simpl.
  - destruct (write_parts write_entry rest store h) as [h1 [[]|e1]] eqn:Hrest;
      simpl; [done|].
    intros [= <- <-]. by eapply IH.
  - destruct (allowedToWrite (deref h this) head); simpl.
    + destruct (write_parts_new rest (h ++ [new_Store]) (length h)
                  (deref_new _ _)) as [h1 ->]. done.
    + by intros [= <- _].
Qed.
End write_parts_Throw.

(** C10 (a failed [write] changes nothing).  Whenever a [write] throws, for
    any path and any value, the heap after the call is the heap before it:
    every store has the entries it had.  A store created on the way is put
    under its key only after the [write] into it has returned (lines 118-119
    and 131-134), and every throw comes before the first such step. *)
Theorem failed_write_changes_nothing
    (h h' : Heap) (this : loc) (path : option string) (value : StoreValue)
    (e : Error) :
  write this path value h = (h', Throw e) →
  h' = h ∧ ∀ l, storeEntries (deref h' l) = storeEntries (deref h l).
Proof.
  intros Hw. assert (h' = h) as ->; [|done].
  destruct path as [path|]; simpl in Hw; [|by injection Hw].
  unfold bind in Hw.
  destruct (write_parts (write_value value) (split colon path) this h)
    as [h1 [[]|e1]] eqn:Hparts; simpl in Hw; [done|].
  injection Hw as <- <-.
  eapply write_parts_Throw; [| |done].
  - apply write_value_Throw.
  - apply write_value_allowed.
Qed.

Lemma failed_write_changes_nothing_witness :
  let h := [mkStore Perm_rw [] [("a", Direct (IsStore 1))];
            mkStore Perm_r [] [("c", Direct (IsPrimitive (JBoolean false)))]] in
  let value := OfObject [("d", JArray [JPrimitive JNull])] in
  (write 0 (Some "a:b:c") value h).2 = Throw (WriteAccessDenied "b") ∧
  (write 0 (Some "a:b:c") value h).1 = h.
Proof.
  intros h value. split; [reflexivity|].
  apply (failed_write_changes_nothing
           h (write 0 (Some "a:b:c") value h).1 0 (Some "a:b:c") value
           (WriteAccessDenied "b")).
  reflexivity.
Defined.

(** ** Reading back what was written *)

Lemma path_allowed_cons h head rest this :
  rest ≠ [] →
  path_allowed h (head :: rest) this =
    allowedToWrite (deref h this) head &&
      match as_Store (storeEntries_get (deref h this) head) with
      | Some store => path_allowed h rest store
      | None => true
      end.
Proof. by destruct rest. Qed.

Lemma visited_cons h head rest this :
  rest ≠ [] →
  visited h (head :: rest) this =
    this :: match as_Store (storeEntries_get (deref h this) head) with
            | Some store => visited h rest store
            | None => []
            end.
Proof. by destruct rest. Qed.

Lemma path_allowed_new h pathParts this :
  deref h this = new_Store → path_allowed h pathParts this = true.
Proof. intros Hnew. destruct pathParts as [|? [|? ?]]; simpl; by rewrite ?Hnew. Qed.

Lemma visited_new h pathParts this :
  deref h this = new_Store → visited h pathParts this = [this].
Proof. intros Hnew. destruct pathParts as [|? [|? ?]]; simpl; by rewrite ?Hnew. Qed.

Lemma heap_wf_new h : heap_wf h → heap_wf (h ++ [new_Store]).
Proof.
  intros Hwf l key store. rewrite length_app. simpl.
  destruct (decide (l < length h)) as [Hlt|Hge].
  - rewrite deref_app_l by done. intros Hs. specialize (Hwf _ _ _ Hs). lia.
  - destruct (decide (l = length h)) as [->|Hne].
    + by rewrite deref_new.
    + rewrite deref_dangling; [done|]. rewrite length_app. simpl. lia.
Qed.

(** The [write] of a primitive along a path that is allowed and goes through
    no store twice returns; it changes no store of the heap off the path, and
    a [read] along the same path then finds the primitive, in any heap that
    agrees with the resulting one on the stores of the path and the new ones. *)
Lemma write_then_read val pathParts :
  pathParts ≠ [] →
  ∀ h this,
    heap_wf h → this < length h →
    path_allowed h pathParts this = true →
    NoDup (visited h pathParts this) →
    ∃ h',
      write_parts (write_direct (Direct (IsPrimitive val))) pathParts this h
        = (h', Return tt) ∧
      length h ≤ length h' ∧
      (∀ l, l < length h → l ∉ visited h pathParts this → h' !! l = h !! l) ∧
      (∀ h'',
         (∀ l, l ∈ visited h pathParts this ∨ length h ≤ l → h'' !! l = h' !! l) →
         read_parts h'' pathParts this = Return (IsPrimitive val)).
Proof.
  induction pathParts as [|head rest IH]; [done|].
  intros _ h this Hwf Hlt Hal Hnd.
  destruct (decide (rest = [])) as [->|Hne].
  - simpl in *. apply andb_true_iff in Hal as [Hw Hr].
    unfold write_direct. rewrite Hw. simpl. eexists.
    split_and!; [done|by rewrite length_alter| |].
    + intros l _ Hl. apply list_lookup_alter_ne. set_solver.
    + intros h'' Hag.
      rewrite (deref_lookup _ _ _ (Hag this ltac:(set_solver))).
      rewrite deref_alter_eq by done.
      by rewrite allowedToRead_with_entry, Hr, get_with_entry_eq.
  - rewrite path_allowed_cons in Hal by done.
    rewrite visited_cons in Hnd |- * by done.
    apply andb_true_iff in Hal as [Hw Hal].
    apply NoDup_cons in Hnd as [Hnin Hnd].
    rewrite write_parts_cons by done.
    destruct (as_Store (storeEntries_get (deref h this) head))
      as [store|] eqn:He.
    + destruct (IH Hne h store Hwf (Hwf _ _ _ He) Hal Hnd)
        as (h1 & Hw1 & Hlen & Hframe & Hread).
      rewrite (bind_Return _ _ h h store eq_refl).
      rewrite (bind_Return _ _ _ _ _ Hw1). unfold storeEntries_set.
      pose proof (Hframe this Hlt Hnin) as Hthis.
      rewrite alter_fixed.
      2:{ rewrite (deref_lookup _ _ _ Hthis). by apply with_entry_same. }
      exists h1. split_and!; [done..| |].
      * intros l Hl Hl'. apply Hframe; [done|]. set_solver.
      * intros h'' Hag. rewrite read_parts_cons by done.
        rewrite (deref_lookup h h'' this).
        2:{ rewrite <- Hthis. apply Hag. set_solver. }
        apply as_Store_Some in He as ->. apply Hread.
        intros l [Hin|Hge]; apply Hag; [left|by right].
        by apply elem_of_cons; right.
    + rewrite Hw.
      destruct (IH Hne (h ++ [new_Store]) (length h))
        as (h1 & Hw1 & Hlen & Hframe & Hread).
      { by apply heap_wf_new. }
      { rewrite length_app. simpl. lia. }
      { apply path_allowed_new, deref_new. }
      { rewrite visited_new by apply deref_new. apply NoDup_singleton. }
      rewrite (bind_Return _ _ h (h ++ [new_Store]) (length h) eq_refl).
      rewrite (bind_Return _ _ _ _ _ Hw1). unfold storeEntries_set.
      rewrite visited_new in Hframe, Hread by apply deref_new.
      rewrite length_app in Hlen, Hframe, Hread. simpl in Hlen, Hframe, Hread.
      eexists. split_and!; [done|rewrite length_alter; lia| |].
      * intros l Hl Hl'. rewrite list_lookup_alter_ne by set_solver.
        rewrite Hframe; [by apply lookup_app_l|lia|].
        rewrite list_elem_of_singleton. lia.
      * intros h'' Hag. rewrite read_parts_cons by done.
        rewrite (deref_lookup _ _ _ (Hag this ltac:(set_solver))).
        rewrite deref_alter_eq by lia. rewrite get_with_entry_eq.
        apply Hread. intros l Hl.
        assert (length h ≤ l) as Hge.
        { destruct Hl as [->%list_elem_of_singleton|]; lia. }
        rewrite Hag by (right; done).
        apply list_lookup_alter_ne. lia.
Qed.

(** The heap where the one store holds itself under the key ["a"], as
    [write("a", store)] on a new store leaves it. *)
Lemma self_reference :
  write 0 (Some "a") (OfResult (IsStore 0)) [new_Store]
    = ([mkStore Perm_rw [] [("a", Direct (IsStore 0))]],
       Return (OfResult (IsStore 0))).
Proof. reflexivity. Qed.

(** There, [write("a:a", 5)] puts 5 under ["a"] and then puts the store back
    under ["a"] (line 119), so that [read("a:a")] finds the store. *)
Lemma self_reference_write_read :
  let h := (write 0 (Some "a") (OfResult (IsStore 0)) [new_Store]).1 in
  heap_wf h ∧
  path_allowed h (split colon "a:a") 0 = true ∧
  write 0 (Some "a:a") (primitive (JNumber 5)) h
    = (h, Return (primitive (JNumber 5))) ∧
  read h 0 (Some "a:a") = Return (IsStore 0).
Proof. rewrite self_reference. by split_and!; [apply heap_wfb_wf|..]. Qed.

(** C1 as stated fails: the round trip does not hold on every store.  On the
    store that holds itself under ["a"], which [write("a", store)] builds from
    a new store, the path ["a:a"] is writable and readable throughout,
    [write("a:a", 5)] returns, and [read("a:a")] then returns the store. *)
Lemma round_trip_counterexample :
  ¬ (∀ (h : Heap) (this : loc) (path : string) (val : JSONPrimitive),
       heap_wf h → this < length h →
       path_allowed h (split colon path) this = true →
       ∃ h', write this (Some path) (primitive val) h
               = (h', Return (primitive val)) ∧
             read h' this (Some path) = Return (IsPrimitive val)).
Proof.
  intros Hall.
  destruct self_reference_write_read as (Hwf & Hal & Hw & Hr).
  destruct (Hall _ 0 "a:a" (JNumber 5) Hwf ltac:(simpl; lia) Hal)
    as (h' & Hw' & Hr').
  rewrite Hw in Hw'. injection Hw' as <-.
  discriminate (eq_trans (eq_sym Hr) Hr').
Qed.

Lemma final_step_cons h head rest this :
  rest ≠ [] →
  final_step h (head :: rest) this =
    match as_Store (storeEntries_get (deref h this) head) with
    | Some store => final_step h rest store
    | None => (this, head)
    end.
Proof. by destruct rest. Qed.

Lemma earlier_steps_cons h head rest this :
  rest ≠ [] →
  earlier_steps h (head :: rest) this =
    match as_Store (storeEntries_get (deref h this) head) with
    | Some store => (this, head) :: earlier_steps h rest store
    | None => []
    end.
Proof. by destruct rest. Qed.

(** With aliased stores: as long as the [write] does not come, before its
    final step, through the store and key of that step, the stores it puts
    back on its way up (line 119) are the ones already there, and the entry
    of the final step is the only one of the old heap that changes. *)
Lemma write_then_read_aliased val pathParts :
  pathParts ≠ [] →
  ∀ h this,
    heap_wf h → this < length h →
    path_allowed h pathParts this = true →
    final_step h pathParts this ∉ earlier_steps h pathParts this →
    ∃ h',
      write_parts (write_direct (Direct (IsPrimitive val))) pathParts this h
        = (h', Return tt) ∧
      length h ≤ length h' ∧
      (final_step h pathParts this).1 < length h ∧
      (∀ l, l < length h → l ≠ (final_step h pathParts this).1 →
            h' !! l = h !! l) ∧
      (∃ e, deref h' (final_step h pathParts this).1
            = with_entry (final_step h pathParts this).2 e
                (deref h (final_step h pathParts this).1)) ∧
      (is_Some (as_Store (storeEntries_get
                            (deref h (final_step h pathParts this).1)
                            (final_step h pathParts this).2)) →
       length h' = length h) ∧
      read_parts h' pathParts this = Return (IsPrimitive val).
Proof.
  induction pathParts as [|head rest IH]; [done|].
  intros _ h this Hwf Hlt Hal Hfin.
  destruct (decide (rest = [])) as [->|Hne].
  - simpl in *. apply andb_true_iff in Hal as [Hw Hr].
    unfold write_direct. rewrite Hw. simpl. eexists.
    split_and!; [done|by rewrite length_alter|done| | | |].
    + intros l _ Hl. by apply list_lookup_alter_ne.
    + eexists. by apply deref_alter_eq.
    + intros _. apply length_alter.
    + rewrite deref_alter_eq by done.
      by rewrite allowedToRead_with_entry, Hr, get_with_entry_eq.
  - rewrite path_allowed_cons in Hal by done.
    rewrite earlier_steps_cons in Hfin by done.
    rewrite final_step_cons in Hfin |- * by done.
    apply andb_true_iff in Hal as [Hw Hal].
    rewrite write_parts_cons by done.
    destruct (as_Store (storeEntries_get (deref h this) head))
      as [store|] eqn:He.
    + apply not_elem_of_cons in Hfin as [Hfirst Hfin].
      destruct (IH Hne h store Hwf (Hwf _ _ _ He) Hal Hfin)
        as (h1 & Hw1 & Hlen & Ha & Hframe & [e Hat] & Hsame & Hread).
      destruct (final_step h rest store) as [a k]. cbn [fst snd] in *.
      rewrite (bind_Return _ _ h h store eq_refl).
      rewrite (bind_Return _ _ _ _ _ Hw1). unfold storeEntries_set.
      assert (as_Store (storeEntries_get (deref h1 this) head) = Some store)
        as He1.
      { destruct (decide (this = a)) as [->|Hthis].
        - rewrite Hat, get_with_entry_ne; [done|]. by intros ->.
        - by rewrite (deref_lookup _ _ _ (Hframe this Hlt Hthis)). }
      rewrite alter_fixed by by apply with_entry_same.
      exists h1. split_and!; [done..|by exists e|done|].
      rewrite read_parts_cons by done.
      by apply as_Store_Some in He1 as ->.
    + rewrite Hw.
      destruct (write_then_read val rest Hne (h ++ [new_Store]) (length h))
        as (h1 & Hw1 & Hlen & Hframe & Hread).
      { by apply heap_wf_new. }
      { rewrite length_app. simpl. lia. }
      { apply path_allowed_new, deref_new. }
      { rewrite visited_new by apply deref_new. apply NoDup_singleton. }
      rewrite (bind_Return _ _ h (h ++ [new_Store]) (length h) eq_refl).
      rewrite (bind_Return _ _ _ _ _ Hw1). unfold storeEntries_set.
      rewrite visited_new in Hframe, Hread by apply deref_new.
      rewrite length_app in Hlen, Hframe, Hread. simpl in Hlen, Hframe, Hread.
      assert (∀ l, l < length h → h1 !! l = h !! l) as Hold.
      { intros l Hl. rewrite Hframe; [by apply lookup_app_l|lia|].
        rewrite list_elem_of_singleton. lia. }
      eexists. cbn [fst snd].
      split_and!; [done|rewrite length_alter; lia|done| | | |].
      * intros l Hl Hl'. rewrite list_lookup_alter_ne by done. by apply Hold.
      * eexists. rewrite deref_alter_eq by lia.
        by rewrite (deref_lookup _ _ _ (Hold this Hlt)).
      * rewrite He. by intros [? [=]].
      * rewrite read_parts_cons by done.
        rewrite deref_alter_eq by lia. rewrite get_with_entry_eq.
        apply Hread. intros l Hl.
        assert (length h ≤ l) as Hge.
        { destruct Hl as [->%list_elem_of_singleton|]; lia. }
        apply list_lookup_alter_ne. lia.
Qed.

Lemma with_entry_twice key e value s :
  with_entry key value (with_entry key e s) = with_entry key value s.
Proof.
  unfold with_entry. simpl. f_equal.
  induction (storeEntries s) as [|[k0 v0] m IH]; simpl.
  - by rewrite String.eqb_refl.
  - destruct (String.eqb k0 key) eqn:Hk; simpl.
    + by rewrite String.eqb_refl.
    + by rewrite Hk, IH.
Qed.

(** Along a path whose every part but the last holds a store, [read] returns
    what the entry of the final step gives. *)
Lemma read_final_step h pathParts :
  pathParts ≠ [] →
  ∀ this,
    path_allowed h pathParts this = true →
    is_Some (as_Store (storeEntries_get
                         (deref h (final_step h pathParts this).1)
                         (final_step h pathParts this).2)) →
    read_parts h pathParts this =
      Return (call (storeEntries_get
                      (deref h (final_step h pathParts this).1)
                      (final_step h pathParts this).2)).
Proof.
  induction pathParts as [|head rest IH]; [done|]. intros _ this Hal.
  destruct (decide (rest = [])) as [->|Hne].
  - simpl in *. apply andb_true_iff in Hal as [_ ->]. simpl.
    by destruct (storeEntries_get (deref h this) head).
  - rewrite path_allowed_cons in Hal by done.
    rewrite final_step_cons, read_parts_cons by done.
    apply andb_true_iff in Hal as [_ Hal].
    destruct (as_Store (storeEntries_get (deref h this) head))
      as [store|] eqn:He.
    + apply as_Store_Some in He as ->. by apply IH.
    + simpl. rewrite He. by intros [? [=]].
Qed.

(** The proviso of the round trip is needed: when the path does come back to
    the store and key of its final step, the [write] puts back the store it
    found there (line 119), the heap ends as it began, and [read] returns
    that store. *)
Lemma round_trip_fails_when_path_returns val pathParts :
  pathParts ≠ [] →
  ∀ h this,
    heap_wf h → this < length h →
    path_allowed h pathParts this = true →
    final_step h pathParts this ∈ earlier_steps h pathParts this →
    write_parts (write_direct (Direct (IsPrimitive val))) pathParts this h
      = (h, Return tt) ∧
    ∃ store, read_parts h pathParts this = Return (IsStore store).
Proof.
  induction pathParts as [|head rest IH]; [done|].
  intros _ h this Hwf Hlt Hal Hfin.
  destruct (decide (rest = [])) as [->|Hne]; [by apply elem_of_nil in Hfin|].
  pose proof Hal as Hal'.
  rewrite path_allowed_cons in Hal by done.
  rewrite earlier_steps_cons in Hfin by done.
  rewrite final_step_cons in Hfin by done.
  apply andb_true_iff in Hal as [Hw Hal].
  rewrite write_parts_cons, read_parts_cons by done.
  destruct (as_Store (storeEntries_get (deref h this) head))
    as [store|] eqn:He; [|by apply elem_of_nil in Hfin].
  rewrite (bind_Return _ _ h h store eq_refl).
  destruct (decide (final_step h rest store ∈ earlier_steps h rest store))
    as [Hin|Hnin].
  - destruct (IH Hne h store Hwf (Hwf _ _ _ He) Hal Hin) as [Hw1 Hread].
    rewrite (bind_Return _ _ _ _ _ Hw1). unfold storeEntries_set.
    rewrite alter_fixed by by apply with_entry_same.
    by apply as_Store_Some in He as ->.
  - apply elem_of_cons in Hfin as [Hfin|Hfin]; [|done].
    destruct (write_then_read_aliased val rest Hne h store Hwf (Hwf _ _ _ He)
                Hal Hnin)
      as (h1 & Hw1 & _ & _ & Hframe & [e Hat] & Hsame & _).
    pose proof (read_final_step h rest Hne store Hal) as Hread.
    rewrite Hfin in Hframe, Hat, Hsame, Hread. cbn [fst snd] in *.
    rewrite He in Hsame, Hread.
    specialize (Hsame ltac:(by eexists)). specialize (Hread ltac:(by eexists)).
    rewrite (bind_Return _ _ _ _ _ Hw1). unfold storeEntries_set. split.
    + f_equal. apply list_eq. intros l.
      destruct (decide (this = l)) as [<-|Hne'].
      * rewrite list_lookup_alter_eq.
        assert (this < length h1) as Hlt1 by lia.
        destruct (lookup_lt_is_Some_2 h1 this Hlt1) as [s1 Hs1].
        destruct (lookup_lt_is_Some_2 h this Hlt) as [s0 Hs0].
        unfold deref in Hat, He. rewrite Hs1, Hs0 in Hat. rewrite Hs0 in He.
        simpl in *. rewrite Hs1, Hs0. simpl. f_equal.
        rewrite Hat, with_entry_twice. by apply with_entry_same.
      * rewrite list_lookup_alter_ne by done.
        destruct (decide (l < length h)) as [Hl|Hl]; [by apply Hframe|].
        rewrite !lookup_ge_None_2; [done|lia..].
    + apply as_Store_Some in He as Hentry. rewrite Hentry.
      rewrite Hread, Hentry. by eexists.
Qed.

Lemma final_step_visited h pathParts :
  ∀ this, (final_step h pathParts this).1 ∈ visited h pathParts this.
Proof.
  induction pathParts as [|head rest IH]; intros this; [by left|].
  destruct (decide (rest = [])) as [->|Hne]; [by left|].
  rewrite final_step_cons, visited_cons by done.
  destruct (as_Store (storeEntries_get (deref h this) head)) as [store|];
    [|by left].
  right. apply IH.
Qed.

(** When the stores along the path are distinct objects, the path does not
    come back to its final step. *)
Lemma distinct_stores_no_return h pathParts :
  ∀ this,
    NoDup (visited h pathParts this) →
    final_step h pathParts this ∉ earlier_steps h pathParts this.
Proof.
  induction pathParts as [|head rest IH]; intros this Hnd;
    [by apply not_elem_of_nil|].
  destruct (decide (rest = [])) as [->|Hne]; [by apply not_elem_of_nil|].
  rewrite visited_cons in Hnd by done.
  rewrite final_step_cons, earlier_steps_cons by done.
  destruct (as_Store (storeEntries_get (deref h this) head)) as [store|];
    [|by apply not_elem_of_nil].
  apply NoDup_cons in Hnd as [Hthis Hnd].
  apply not_elem_of_cons. split; [|by apply IH].
  intros Heq. apply Hthis.
  pose proof (final_step_visited h rest store) as Hin. by rewrite Heq in Hin.
Qed.

(** C1, amended (round trip).  For every primitive [val] and every path whose
    parts are all writable, the last one being readable in the last store,
    [write(path, val)] returns and [read(path)] on the same store then returns
    [val], provided that the path does not come, before its final step,
    through the store and key of that step (in particular whenever the stores
    along the path are distinct objects). *)
Theorem round_trip_unless_path_returns
    (h : Heap) (this : loc) (path : string) (val : JSONPrimitive) :
  heap_wf h → this < length h →
  path_allowed h (split colon path) this = true →
  final_step h (split colon path) this ∉ earlier_steps h (split colon path) this →
  ∃ h', write this (Some path) (primitive val) h
          = (h', Return (primitive val)) ∧
        read h' this (Some path) = Return (IsPrimitive val).
Proof.
  intros Hwf Hlt Hal Hfin.
  destruct (write_then_read_aliased val (split colon path) (split_not_nil _ _)
              h this Hwf Hlt Hal Hfin) as (h' & Hw & _ & _ & _ & _ & _ & Hread).
  exists h'. split; [|done].
  unfold primitive. rewrite write_of_primitive.
  unfold bind, write_primitive. by rewrite Hw.
Qed.

Lemma round_trip_unless_path_returns_witness :
  let h := [mkStore Perm_rw [("a", Perm_w)] [("a", Direct (IsStore 0))]] in
  ∃ h', write 0 (Some "a:a:c") (primitive (JString "v")) h
          = (h', Return (primitive (JString "v"))) ∧
        read h' 0 (Some "a:a:c") = Return (IsPrimitive (JString "v")).
Proof.
  intros h.
  apply (round_trip_unless_path_returns h 0 "a:a:c" (JString "v")).
  - by apply heap_wfb_wf.
  - simpl. lia.
  - reflexivity.
  - exact (bool_decide_unpack ((0, "c") ∉ [(0, "a"); (0, "a")]) I).
Defined.

(** ** Step by step through [write] *)

Lemma write_direct_allowed value path this h :
  allowedToWrite (deref h this) path = true →
  write_direct value path this h
    = (alter (with_entry path value) this h, Return tt).
Proof. intros Hw. unfold write_direct. by rewrite Hw. Qed.

(** Lines 109-119 when the head holds no store and may be written. *)
Lemma write_parts_vivify write_entry head rest this h h1 :
  rest ≠ [] →
  as_Store (storeEntries_get (deref h this) head) = None →
  allowedToWrite (deref h this) head = true →
  write_parts write_entry rest (length h) (h ++ [new_Store]) = (h1, Return tt) →
  write_parts write_entry (head :: rest) this h
    = (alter (with_entry head (Direct (IsStore (length h)))) this h1, Return tt).
Proof.
  intros Hne He Hw Hrest. rewrite write_parts_cons by done. rewrite He, Hw.
  rewrite (bind_Return _ _ h (h ++ [new_Store]) (length h) eq_refl).
  by rewrite (bind_Return _ _ _ _ _ Hrest).
Qed.

(** Lines 109-119 when the head holds a store. *)
Lemma write_parts_existing write_entry head rest this store h h1 :
  rest ≠ [] →
  as_Store (storeEntries_get (deref h this) head) = Some store →
  write_parts write_entry rest store h = (h1, Return tt) →
  write_parts write_entry (head :: rest) this h
    = (alter (with_entry head (Direct (IsStore store))) this h1, Return tt).
Proof.
  intros Hne He Hrest. rewrite write_parts_cons by done. rewrite He.
  rewrite (bind_Return _ _ h h store eq_refl).
  by rewrite (bind_Return _ _ _ _ _ Hrest).
Qed.

(** The first and second object after a given heap. *)
Lemma deref_at_0 (h : Heap) s k l : l = length h → deref (h ++ s :: k) l = s.
Proof. intros ->. unfold deref. by rewrite list_lookup_middle. Qed.

Lemma deref_at_1 (h : Heap) s0 s k l : l = length h + 1 → deref (h ++ s0 :: s :: k) l = s.
Proof.
  intros ->. unfold deref. rewrite lookup_app_r by lia.
  by replace (length h + 1 - length h) with 1 by lia.
Qed.

Lemma alter_at_0 (f : Store → Store) (h : Heap) s k l :
  l = length h → alter f l (h ++ s :: k) = h ++ f s :: k.
Proof.
  intros ->. rewrite <- (Nat.add_0_r (length h)). by rewrite alter_app_r.
Qed.

Lemma alter_at_1 (f : Store → Store) (h : Heap) s0 s k l :
  l = length h + 1 → alter f l (h ++ s0 :: s :: k) = h ++ s0 :: f s :: k.
Proof. intros ->. by rewrite alter_app_r. Qed.


(** ** Writes that create stores *)



(** The value [{b: 1, c: [2, 3]}]. *)
Lemma flattened_example :
  getAllPathFromJsonValue
    (JObject [("b", JPrimitive (JNumber 1));
              ("c", JArray [JPrimitive (JNumber 2); JPrimitive (JNumber 3)])]) []
  = [("b", JNumber 1); ("c:0", JNumber 2); ("c:1", JNumber 3)].
Proof. reflexivity. Qed.

(** [write("a", {b: 1, c: [2, 3]})] on a store that allows writing ["a"]:
    the heap gets two new stores, and the first is put under ["a"]. *)
Lemma write_example (h : Heap) (this : loc) :
  this < length h →
  allowedToWrite (deref h this) "a" = true →
  let value := OfObject [("b", JPrimitive (JNumber 1));
                         ("c", JArray [JPrimitive (JNumber 2);
                                       JPrimitive (JNumber 3)])] in
  write this (Some "a") value h
    = (alter (with_entry "a" (Direct (IsStore (length h)))) this h
         ++ [mkStore Perm_rw []
               [("b", Direct (IsPrimitive (JNumber 1)));
                ("c", Direct (IsStore (length h + 1)))];
             mkStore Perm_rw []
               [("0", Direct (IsPrimitive (JNumber 2)));
                ("1", Direct (IsPrimitive (JNumber 3)))]],
       Return value).
Proof.
  intros Hlt Hw value.
  set (a := length h). set (c := length h + 1).
  set (sb := mkStore Perm_rw [] [("b", Direct (IsPrimitive (JNumber 1)))]).
  set (s0 := mkStore Perm_rw [] [("0", Direct (IsPrimitive (JNumber 2)))]).
  set (sbc := mkStore Perm_rw [] [("b", Direct (IsPrimitive (JNumber 1)));
                                  ("c", Direct (IsStore c))]).
  set (s01 := mkStore Perm_rw [] [("0", Direct (IsPrimitive (JNumber 2)));
                                  ("1", Direct (IsPrimitive (JNumber 3)))]).
  assert (write_primitive a "b" (JNumber 1) (h ++ [new_Store])
          = (h ++ [sb], Return tt)) as H1.
  { unfold write_primitive. change (split colon "b") with ["b"].
    cbn [write_parts]. rewrite write_direct_allowed by (by rewrite deref_new).
    by rewrite alter_at_0. }
  assert (write_primitive a "c:0" (JNumber 2) (h ++ [sb])
          = (h ++ [sbc; s0], Return tt)) as H2.
  { unfold write_primitive. change (split colon "c:0") with ["c"; "0"].
    rewrite (write_parts_vivify _ "c" ["0"] a _ (h ++ [sb; s0]));
      [|done|by rewrite deref_at_0..|].
    - rewrite length_app. by rewrite alter_at_0.
    - rewrite length_app, <- app_assoc. cbn [write_parts app length].
      rewrite write_direct_allowed by (by rewrite deref_at_1).
      by rewrite alter_at_1. }
  assert (write_primitive a "c:1" (JNumber 3) (h ++ [sbc; s0])
          = (h ++ [sbc; s01], Return tt)) as H3.
  { unfold write_primitive. change (split colon "c:1") with ["c"; "1"].
    rewrite (write_parts_existing _ "c" ["1"] a c _ (h ++ [sbc; s01]));
      [|done|by rewrite deref_at_0|].
    - by rewrite alter_at_0.
    - cbn [write_parts].
      rewrite write_direct_allowed by (by rewrite deref_at_1).
      by rewrite alter_at_1. }
  subst value. unfold write. change (split colon "a") with ["a"].
  cbn [write_parts]. unfold bind at 1. unfold write_value. rewrite Hw.
  cbn [negb]. unfold write_composite.
  rewrite (bind_Return _ _ h (h ++ [new_Store]) a eq_refl).
  rewrite flattened_example. cbn [forEach fst snd].
  rewrite (bind_Return _ _ _ (h ++ [sbc; s01]) tt).
  - unfold storeEntries_set. by rewrite alter_app_l.
  - rewrite (bind_Return _ _ _ _ _ H1), (bind_Return _ _ _ _ _ H2).
    by rewrite (bind_Return _ _ _ _ _ H3).
Qed.

(** ** Flattening *)

Section JsMap_membership.
Context {V : Type}.
Implicit Types (m src dst : list (string * V)) (k : string) (v : V).

Lemma In_set m k v kv : In kv (JsMap.set m k v) → kv = (k, v) ∨ In kv m.
Proof.
  induction m as [|[k0 v0] m IH]; simpl.
  - intros [<-|[]]. by left.
  - destruct (String.eqb k0 k).
    + intros [<-|Hin]; [by left|right; by right].
    + intros [<-|Hin]; [right; by left|].
      destruct (IH Hin); [by left|right; by right].
Qed.

Lemma In_set_all src dst kv :
  In kv (JsMap.set_all src dst) → In kv src ∨ In kv dst.
Proof.
  unfold JsMap.set_all. revert dst.
  induction src as [|[k v] src IH]; intros dst; simpl; [by right|].
  intros [Hin|Hin]%IH; [left; by right|].
  apply In_set in Hin as [->|Hin]; [left; by left|by right].
Qed.

Lemma get_set_is_Some m k v k' :
  k = k' ∨ is_Some (JsMap.get m k') → is_Some (JsMap.get (JsMap.set m k v) k').
Proof.
  destruct (decide (k = k')) as [<-|Hne].
  - intros _. rewrite get_set_eq. by eexists.
  - rewrite get_set_ne by done. by intros [|].
Qed.

Lemma get_set_all_is_Some src dst k :
  is_Some (JsMap.get src k) ∨ is_Some (JsMap.get dst k) →
  is_Some (JsMap.get (JsMap.set_all src dst) k).
Proof.
  unfold JsMap.set_all. revert dst.
  induction src as [|[k0 v0] src IH]; intros dst; simpl.
  - intros [[? [=]]|]; done.
  - intros Hk. apply IH. destruct (String.eqb k0 k) eqn:Heq.
    + right. apply get_set_is_Some. left. by apply String.eqb_eq.
    + destruct Hk as [|Hk]; [by left|right]. apply get_set_is_Some. by right.
Qed.
End JsMap_membership.

(** Every binding of the flattened map is a leaf, under the colon-joined keys
    and indices that lead to it. *)
Lemma flatten_sound obj :
  ∀ currentPath path p,
    In (path, p) (getAllPathFromJsonValue obj currentPath) →
    ∃ keys, In (keys, p) (leaves obj) ∧ path = join colon (currentPath ++ keys).
Proof.
  induction obj as [p0|items IH|fields IH] using JSONValue_nested_ind;
    intros cur path p.
  - simpl. intros [[= <- <-]|[]]. exists []. by rewrite app_nil_r; split; [left|].
  - change (getAllPathFromJsonValue (JArray items) cur)
      with (flatten_items cur items 0 []).
    change (leaves (JArray items)) with (leaves_items items 0).
    assert (∀ index result,
              In (path, p) (flatten_items cur items index result) →
              In (path, p) result ∨
              ∃ keys, In (keys, p) (leaves_items items index) ∧
                      path = join colon (cur ++ keys)) as Hloop.
    { induction IH as [|item items Hitem _ IHitems]; intros index result; simpl;
        [by left|].
      intros [Hin|(keys & Hk & ->)]%IHitems.
      - apply In_set_all in Hin as [Hsub|Hres]; [|by left]. right.
        destruct (Hitem _ _ _ Hsub) as (keys & Hk & ->).
        exists (toString index :: keys). rewrite <- app_assoc.
        split; [|done]. apply in_app_iff. left. apply in_map_iff.
        by exists (keys, p).
      - right. exists keys. split; [|done]. apply in_app_iff. by right. }
    intros [[]|Hin]%Hloop. done.
  - change (getAllPathFromJsonValue (JObject fields) cur)
      with (flatten_fields cur fields []).
    change (leaves (JObject fields)) with (leaves_fields fields).
    assert (∀ result,
              In (path, p) (flatten_fields cur fields result) →
              In (path, p) result ∨
              ∃ keys, In (keys, p) (leaves_fields fields) ∧
                      path = join colon (cur ++ keys)) as Hloop.
    { induction IH as [|[key value] fields Hvalue _ IHfields]; intros result;
        simpl; [by left|].
      intros [Hin|(keys & Hk & ->)]%IHfields.
      - apply In_set_all in Hin as [Hsub|Hres]; [|by left]. right.
        destruct (Hvalue _ _ _ Hsub) as (keys & Hk & ->).
        exists (key :: keys). rewrite <- app_assoc.
        split; [|done]. apply in_app_iff. left. apply in_map_iff.
        by exists (keys, p).
      - right. exists keys. split; [|done]. apply in_app_iff. by right. }
    intros [[]|Hin]%Hloop. done.
Qed.

(** Every leaf has its colon-joined path among the keys of the flattened map. *)
Lemma flatten_complete obj :
  ∀ currentPath keys p,
    In (keys, p) (leaves obj) →
    is_Some (JsMap.get (getAllPathFromJsonValue obj currentPath)
               (join colon (currentPath ++ keys))).
Proof.
  induction obj as [p0|items IH|fields IH] using JSONValue_nested_ind;
    intros cur keys p.
  - simpl. intros [[= <- <-]|[]]. rewrite app_nil_r, String.eqb_refl. by eexists.
  - change (getAllPathFromJsonValue (JArray items) cur)
      with (flatten_items cur items 0 []).
    change (leaves (JArray items)) with (leaves_items items 0).
    assert (∀ index result,
              In (keys, p) (leaves_items items index) ∨
              is_Some (JsMap.get result (join colon (cur ++ keys))) →
              is_Some (JsMap.get (flatten_items cur items index result)
                         (join colon (cur ++ keys)))) as Hloop.
    { induction IH as [|item items Hitem _ IHitems]; intros index result; simpl;
        [by intros [[]|]|].
      intros Hk. apply IHitems. rewrite in_app_iff in Hk.
      destruct Hk as [[Hk|Hk]|Hk]; [|by left|].
      - right. apply get_set_all_is_Some. left.
        apply in_map_iff in Hk as ([keys' p'] & [= <- <-] & Hk).
        simpl.
        replace (cur ++ toString index :: keys')
          with ((cur ++ [toString index]) ++ keys') by (by rewrite <- app_assoc).
        by eapply Hitem.
      - right. apply get_set_all_is_Some. by right. }
    intros Hk. apply Hloop. by left.
  - change (getAllPathFromJsonValue (JObject fields) cur)
      with (flatten_fields cur fields []).
    change (leaves (JObject fields)) with (leaves_fields fields).
    assert (∀ result,
              In (keys, p) (leaves_fields fields) ∨
              is_Some (JsMap.get result (join colon (cur ++ keys))) →
              is_Some (JsMap.get (flatten_fields cur fields result)
                         (join colon (cur ++ keys)))) as Hloop.
    { induction IH as [|[key value] fields Hvalue _ IHfields]; intros result;
        simpl; [by intros [[]|]|].
      intros Hk. apply IHfields. rewrite in_app_iff in Hk.
      destruct Hk as [[Hk|Hk]|Hk]; [|by left|].
      - right. apply get_set_all_is_Some. left.
        apply in_map_iff in Hk as ([keys' p'] & [= <- <-] & Hk).
        simpl.
        replace (cur ++ key :: keys')
          with ((cur ++ [key]) ++ keys') by (by rewrite <- app_assoc).
        by eapply Hvalue.
      - right. apply get_set_all_is_Some. by right. }
    intros Hk. apply Hloop. by left.
Qed.

(** C3 (composite expansion).  On a store that allows writing ["a"],
    [write("a", {b: 1, c: [2, 3]})] returns and puts under ["a"] a store that
    the heap did not hold before; afterwards [read("a:b")] returns 1,
    [read("a:c:0")] returns 2 and [read("a:c:1")] returns 3.  The store is
    filled from the flattened value, in which every binding is a leaf of the
    value under the colon-joined object keys and decimal array indices that
    lead to it, and every leaf has its path among the keys. *)
Theorem composite_expansion :
  (∀ (h : Heap) (this : loc),
     this < length h →
     allowedToWrite (deref h this) "a" = true →
     let value := OfObject [("b", JPrimitive (JNumber 1));
                            ("c", JArray [JPrimitive (JNumber 2);
                                          JPrimitive (JNumber 3)])] in
     ∃ h',
       write this (Some "a") value h = (h', Return value) ∧
       h !! length h = None ∧
       storeEntries_get (deref h' this) "a" = Direct (IsStore (length h)) ∧
       read h' this (Some "a:b") = Return (IsPrimitive (JNumber 1)) ∧
       read h' this (Some "a:c:0") = Return (IsPrimitive (JNumber 2)) ∧
       read h' this (Some "a:c:1") = Return (IsPrimitive (JNumber 3))) ∧
  (∀ obj path p,
     In (path, p) (getAllPathFromJsonValue obj []) →
     ∃ keys, In (keys, p) (leaves obj) ∧ path = join colon keys) ∧
  (∀ obj keys p,
     In (keys, p) (leaves obj) →
     is_Some (JsMap.get (getAllPathFromJsonValue obj []) (join colon keys))) ∧
  leaves (JArray [JPrimitive JNull; JArray [JPrimitive (JBoolean true)]])
    = [(["0"], JNull); (["1"; "0"], JBoolean true)].
Proof.
  split_and!;
    [|intros obj; apply (flatten_sound obj [])
     |intros obj; apply (flatten_complete obj [])|done].
  intros h this Hlt Hw value.
  set (c := length h + 1).
  set (sbc := mkStore Perm_rw [] [("b", Direct (IsPrimitive (JNumber 1)));
                                  ("c", Direct (IsStore c))]).
  set (s01 := mkStore Perm_rw [] [("0", Direct (IsPrimitive (JNumber 2)));
                                  ("1", Direct (IsPrimitive (JNumber 3)))]).
  set (h0 := alter (with_entry "a" (Direct (IsStore (length h)))) this h).
  assert (length h0 = length h) as Hlen by apply length_alter.
  assert (deref (h0 ++ [sbc; s01]) this
          = with_entry "a" (Direct (IsStore (length h))) (deref h this)) as Hthis.
  { rewrite deref_app_l by lia. by apply deref_alter_eq. }
  assert (deref (h0 ++ [sbc; s01]) (length h) = sbc) as Ha by by apply deref_at_0.
  assert (deref (h0 ++ [sbc; s01]) c = s01) as Hc.
  { apply deref_at_1. unfold c. by rewrite Hlen. }
  exists (h0 ++ [sbc; s01]).
  split_and!.
  - by apply write_example.
  - apply lookup_ge_None_2. lia.
  - by rewrite Hthis, get_with_entry_eq.
  - unfold read. change (split colon "a:b") with ["a"; "b"].
    rewrite read_parts_cons, Hthis, get_with_entry_eq by done.
    cbn [read_parts]. by rewrite Ha.
  - unfold read. change (split colon "a:c:0") with ["a"; "c"; "0"].
    rewrite read_parts_cons, Hthis, get_with_entry_eq by done.
    rewrite read_parts_cons, Ha by done.
    change (storeEntries_get sbc "c") with (Direct (IsStore c)).
    cbn [read_parts]. by rewrite Hc.
  - unfold read. change (split colon "a:c:1") with ["a"; "c"; "1"].
    rewrite read_parts_cons, Hthis, get_with_entry_eq by done.
    rewrite read_parts_cons, Ha by done.
    change (storeEntries_get sbc "c") with (Direct (IsStore c)).
    cbn [read_parts]. by rewrite Hc.
Qed.

Lemma composite_expansion_witness :
  let h := [mkStore Perm_w [] [("a", Direct (IsPrimitive (JBoolean true)))]] in
  let value := OfObject [("b", JPrimitive (JNumber 1));
                         ("c", JArray [JPrimitive (JNumber 2);
                                       JPrimitive (JNumber 3)])] in
  ∃ h',
    write 0 (Some "a") value h = (h', Return value) ∧
    read h' 0 (Some "a:b") = Return (IsPrimitive (JNumber 1)) ∧
    read h' 0 (Some "a:c:0") = Return (IsPrimitive (JNumber 2)) ∧
    read h' 0 (Some "a:c:1") = Return (IsPrimitive (JNumber 3)).
Proof.
  intros h value.
  destruct (proj1 composite_expansion h 0 ltac:(simpl; lia) eq_refl)
    as (h' & Hw & _ & _ & Hb & H0 & H1).
  exists h'. by split_and!.
Defined.

(** ** [entries] *)

Lemma get_not_key {V} (m : list (string * V)) k :
  k ∉ map fst m → JsMap.get m k = None.
Proof.
  induction m as [|[k0 v0] m IH]; simpl; [done|].
  intros [Hne Hm]%not_elem_of_cons.
  apply not_eq_sym, String.eqb_neq in Hne as ->. by apply IH.
Qed.

(** *** Assignment to a plain object *)

Lemma array_index_inj k k' i :
  JsObject.array_index k = Some i → JsObject.array_index k' = Some i → k = k'.
Proof.
  unfold JsObject.array_index. intros Hk Hk'.
  destruct (NilEmpty.uint_of_string k) as [d|]; [|done].
  destruct (NilEmpty.uint_of_string k') as [d'|]; [|done].
  destruct (String.eqb _ k) eqn:He; [|done].
  destruct (String.eqb _ k') eqn:He'; [|done].
  apply String.eqb_eq in He, He'. simpl in Hk, Hk'.
  destruct (N.ltb (N.of_uint d) _); [|done].
  destruct (N.ltb (N.of_uint d') _); [|done].
  congruence.
Qed.

Lemma precedes_string k k' :
  JsObject.array_index k = None → JsObject.precedes k k' = false.
Proof. unfold JsObject.precedes. by intros ->. Qed.

Lemma precedes_asym k k' :
  JsObject.precedes k k' = true → JsObject.precedes k' k = false.
Proof.
  unfold JsObject.precedes.
  destruct (JsObject.array_index k) as [i|], (JsObject.array_index k') as [j|];
    try done.
  intros Hlt%N.ltb_lt. apply N.ltb_ge. lia.
Qed.

Lemma precedes_trans k1 k2 k3 :
  JsObject.precedes k1 k2 = true → JsObject.precedes k2 k3 = true →
  JsObject.precedes k1 k3 = true.
Proof.
  unfold JsObject.precedes.
  destruct (JsObject.array_index k1) as [i|], (JsObject.array_index k2) as [j|],
    (JsObject.array_index k3) as [l|]; try done.
  intros H1%N.ltb_lt H2%N.ltb_lt. apply N.ltb_lt. lia.
Qed.

Section JsObject_facts.
Context {V : Type}.
Implicit Types (o : list (string * V)).

Lemma get_None_keys o k : JsMap.get o k = None ↔ k ∉ map fst o.
Proof.
  induction o as [|[k0 v0] o IH]; simpl.
  - split; [intros _; apply not_elem_of_nil|done].
  - rewrite not_elem_of_cons. destruct (String.eqb k0 k) eqn:Hk.
    + apply String.eqb_eq in Hk as ->. split; [done|]. by intros [? _].
    + apply String.eqb_neq in Hk. rewrite IH. intuition congruence.
Qed.

Lemma keys_set_present o k v :
  is_Some (JsMap.get o k) → map fst (JsMap.set o k v) = map fst o.
Proof.
  induction o as [|[k0 v0] o IH]; simpl; [by intros [? [=]]|].
  destruct (String.eqb k0 k) eqn:Hk; simpl.
  - apply String.eqb_eq in Hk as ->. done.
  - intros Hs. by rewrite IH.
Qed.

Lemma get_define o k v k' :
  JsMap.get o k = None →
  JsMap.get (JsObject.define o k v) k'
    = if String.eqb k k' then Some v else JsMap.get o k'.
Proof.
  induction o as [|[k0 v0] o IH]; simpl; [done|].
  destruct (String.eqb k0 k) eqn:Hk; [done|]. intros Hnone.
  destruct (JsObject.precedes k k0); simpl; [done|].
  rewrite (IH Hnone).
  destruct (String.eqb k0 k') eqn:Hk'; [|done].
  apply String.eqb_eq in Hk' as <-.
  by rewrite String.eqb_sym, Hk.
Qed.

Lemma get_object_set o k v k' :
  JsMap.get (JsObject.set o k v) k'
    = if String.eqb k "__proto__" then JsMap.get o k'
      else if String.eqb k k' then Some v else JsMap.get o k'.
Proof.
  unfold JsObject.set. destruct (String.eqb k "__proto__"); [done|].
  destruct (JsMap.get o k) as [v0|] eqn:Hget; [|by apply get_define].
  destruct (String.eqb k k') eqn:Hk.
  - apply String.eqb_eq in Hk as <-. apply get_set_eq.
  - apply String.eqb_neq in Hk. by apply get_set_ne.
Qed.

Lemma elem_of_keys_define o k v x :
  x ∈ map fst (JsObject.define o k v) ↔ x = k ∨ x ∈ map fst o.
Proof.
  induction o as [|[k0 v0] o IH]; simpl.
  - by rewrite elem_of_cons.
  - destruct (JsObject.precedes k k0); simpl; rewrite !elem_of_cons; [done|].
    rewrite IH. intuition.
Qed.

Lemma NoDup_keys_define o k v :
  k ∉ map fst o → NoDup (map fst o) → NoDup (map fst (JsObject.define o k v)).
Proof.
  induction o as [|[k0 v0] o IH]; simpl.
  - intros _ _. apply NoDup_singleton.
  - intros [Hne Hk]%not_elem_of_cons [Hk0 Hnd]%NoDup_cons.
    destruct (JsObject.precedes k k0); simpl.
    + apply NoDup_cons. split; [|by apply NoDup_cons].
      rewrite not_elem_of_cons. done.
    + apply NoDup_cons. split; [|by apply IH].
      rewrite elem_of_keys_define. intuition.
Qed.

Lemma forallb_keys_define (P : string → bool) o k v :
  forallb P (map fst (JsObject.define o k v)) = P k && forallb P (map fst o).
Proof.
  induction o as [|[k0 v0] o IH]; simpl; [done|].
  destruct (JsObject.precedes k k0); simpl; [done|].
  rewrite IH. by destruct (P k), (P k0).
Qed.

Lemma enumerated_define o k v :
  k ∉ map fst o →
  enumerated (map fst o) = true →
  enumerated (map fst (JsObject.define o k v)) = true.
Proof.
  induction o as [|[k0 v0] o IH]; simpl; [done|].
  intros [Hne Hk]%not_elem_of_cons [Hall Hen]%andb_true_iff.
  destruct (JsObject.precedes k k0) eqn:Hp; simpl.
  - rewrite (precedes_asym _ _ Hp), Hall, Hen. simpl.
    rewrite andb_true_r. apply forallb_forall. intros y Hy.
    rewrite forallb_forall in Hall. specialize (Hall y Hy).
    destruct (JsObject.precedes y k) eqn:Hyk; [|done].
    by rewrite (precedes_trans _ _ _ Hyk Hp) in Hall.
  - rewrite forallb_keys_define, Hp, Hall, (IH Hk Hen). done.
Qed.

Lemma string_keys_define o k v :
  string_keys (map fst (JsObject.define o k v))
    = string_keys (map fst o) ++ string_keys [k].
Proof.
  unfold string_keys. induction o as [|[k0 v0] o IH]; simpl; [done|].
  destruct (JsObject.precedes k k0) eqn:Hp; simpl.
  - assert (JsObject.array_index k ≠ None) as Hk.
    { intros Hk. by rewrite (precedes_string _ _ Hk) in Hp. }
    rewrite (filter_cons_False _ k) by done.
    rewrite (filter_cons_False _ k []) by done.
    by rewrite app_nil_r.
  - rewrite !(filter_cons _ k0), IH.
    by destruct (decide (JsObject.array_index k0 = None)).
Qed.

Lemma define_last o k v :
  Forall (λ y, JsObject.precedes k y = false) (map fst o) →
  JsObject.define o k v = o ++ [(k, v)].
Proof.
  induction o as [|[k0 v0] o IH]; simpl; [done|].
  intros [Hp Hall]%Forall_cons. by rewrite Hp, IH.
Qed.

Lemma NoDup_keys_object_set o k v :
  NoDup (map fst o) → NoDup (map fst (JsObject.set o k v)).
Proof.
  intros Hnd. unfold JsObject.set. destruct (String.eqb k "__proto__"); [done|].
  destruct (JsMap.get o k) as [v0|] eqn:Hget.
  - by rewrite keys_set_present.
  - apply NoDup_keys_define; [by apply get_None_keys|done].
Qed.

Lemma enumerated_object_set o k v :
  enumerated (map fst o) = true →
  enumerated (map fst (JsObject.set o k v)) = true.
Proof.
  intros Hen. unfold JsObject.set. destruct (String.eqb k "__proto__"); [done|].
  destruct (JsMap.get o k) as [v0|] eqn:Hget.
  - by rewrite keys_set_present.
  - apply enumerated_define; [by apply get_None_keys|done].
Qed.

Lemma string_keys_object_set o k v :
  ∃ created,
    string_keys (map fst (JsObject.set o k v))
      = string_keys (map fst o) ++ created ∧
    created `sublist_of` [k].
Proof.
  unfold JsObject.set. destruct (String.eqb k "__proto__").
  { exists []. rewrite app_nil_r. split; [done|apply sublist_nil_l]. }
  destruct (JsMap.get o k) as [v0|] eqn:Hget.
  - exists []. rewrite keys_set_present, app_nil_r by done.
    split; [done|apply sublist_nil_l].
  - exists (string_keys [k]). split; [apply string_keys_define|].
    apply sublist_filter.
Qed.

Lemma object_set_last o k v :
  k ≠ "__proto__" →
  k ∉ map fst o →
  Forall (λ y, JsObject.precedes k y = false) (map fst o) →
  JsObject.set o k v = o ++ [(k, v)].
Proof.
  intros Hk Hnew Hall. unfold JsObject.set.
  apply String.eqb_neq in Hk as ->.
  apply get_None_keys in Hnew as ->. by apply define_last.
Qed.
End JsObject_facts.

Lemma entries_forEach_get entries_of allowed m :
  NoDup (map fst m) →
  ∀ result o,
    entries_forEach entries_of allowed m result = Some o →
    ∀ key,
      JsMap.get o key =
        match JsMap.get m key with
        | Some value =>
            if allowed key && negb (String.eqb key "__proto__") then
              match assigned entries_of value with
              | Some (Some v) => Some v
              | _ => JsMap.get result key
              end
            else JsMap.get result key
        | None => JsMap.get result key
        end.
Proof.
  induction m as [|[k value] m IH]; simpl.
  - by intros _ result o [= <-].
  - intros [Hk Hm]%NoDup_cons result o Ho key.
    assert (∀ result',
              entries_forEach entries_of allowed m result' = Some o →
              JsMap.get o key =
                if String.eqb k key then JsMap.get result' key
                else match JsMap.get m key with
                     | Some value =>
                         if allowed key && negb (String.eqb key "__proto__") then
                           match assigned entries_of value with
                           | Some (Some v) => Some v
                           | _ => JsMap.get result' key
                           end
                         else JsMap.get result' key
                     | None => JsMap.get result' key
                     end) as Hrest.
    { intros result' Ho'. rewrite (IH Hm _ _ Ho' key).
      destruct (String.eqb k key) eqn:Heq; [|done].
      apply String.eqb_eq in Heq as <-. by rewrite (get_not_key _ _ Hk). }
    destruct (String.eqb k key) eqn:Heq.
    + apply String.eqb_eq in Heq as <-.
      destruct (allowed k); [|by rewrite (Hrest _ Ho)]. simpl.
      unfold assigned.
      destruct value as [[store|p|]|[store|p|]]; simpl;
        try destruct (entries_of store); try destruct (truthy p); try done;
        rewrite (Hrest _ Ho), ?get_object_set, ?String.eqb_refl;
        by destruct (String.eqb k "__proto__").
    + destruct (allowed k).
      * destruct value as [[store|p|]|[store|p|]]; simpl in Ho;
          try destruct (entries_of store); try destruct (truthy p); try done;
          rewrite (Hrest _ Ho), ?get_object_set, ?Heq;
          by destruct (String.eqb k "__proto__").
      * by rewrite (Hrest _ Ho).
Qed.

(** The keys of what the loop returns: one property per key, array indices
    first and ascending, the other keys in the order of the entries. *)
Lemma entries_forEach_keys entries_of allowed m :
  ∀ result o,
    entries_forEach entries_of allowed m result = Some o →
    NoDup (map fst result) →
    enumerated (map fst result) = true →
    NoDup (map fst o) ∧
    enumerated (map fst o) = true ∧
    ∃ created,
      string_keys (map fst o) = string_keys (map fst result) ++ created ∧
      created `sublist_of` map fst m.
Proof.
  induction m as [|[k value] m IH]; intros result o Ho Hnd Hen.
  { injection Ho as <-. split_and!; [done..|].
    exists []. by rewrite app_nil_r. }
  assert (∀ result',
            entries_forEach entries_of allowed m result' = Some o →
            NoDup (map fst result') →
            enumerated (map fst result') = true →
            (∃ created,
               string_keys (map fst result')
                 = string_keys (map fst result) ++ created ∧
               created `sublist_of` [k]) →
            NoDup (map fst o) ∧
            enumerated (map fst o) = true ∧
            ∃ created,
              string_keys (map fst o) = string_keys (map fst result) ++ created ∧
              created `sublist_of` map fst ((k, value) :: m)) as Hstep.
  { intros result' Ho' Hnd' Hen' (c1 & Hc1 & Hs1).
    destruct (IH _ _ Ho' Hnd' Hen') as (? & ? & c2 & Hc2 & Hs2).
    split_and!; [done..|]. exists (c1 ++ c2). split.
    - by rewrite Hc2, Hc1, <- app_assoc.
    - change (map fst ((k, value) :: m)) with ([k] ++ map fst m).
      by apply sublist_app. }
  assert (∃ created,
            string_keys (map fst result) = string_keys (map fst result) ++ created ∧
            created `sublist_of` [k]) as Hsame.
  { exists []. rewrite app_nil_r. split; [done|apply sublist_nil_l]. }
  simpl in Ho. destruct (allowed k); [|by apply (Hstep result)].
  destruct value as [[store|p|]|[store|p|]];
    try destruct (entries_of store); try destruct (truthy p); try done;
    try (by apply (Hstep result));
    (apply (Hstep _ Ho);
       [by apply NoDup_keys_object_set|by apply enumerated_object_set
       |apply string_keys_object_set]).
Qed.

(** The loop returns when the calls of [entries()] that it makes do. *)
Lemma entries_forEach_returns entries_of allowed m :
  (∀ key value store,
     (key, value) ∈ m → allowed key = true → resolves value = Some store →
     is_Some (entries_of store)) →
  ∀ result, is_Some (entries_forEach entries_of allowed m result).
Proof.
  induction m as [|[k value] m IH]; intros Hcalls result; [by eexists|].
  assert (∀ result', is_Some (entries_forEach entries_of allowed m result'))
    as Hrest.
  { apply IH. intros key v store Hin. apply Hcalls. by right. }
  simpl. destruct (allowed k) eqn:Hk; [|done].
  destruct value as [[store|p|]|[store|p|]]; try destruct (truthy p); try done;
    by destruct (Hcalls k _ store ltac:(by left) Hk eq_refl) as [o ->].
Qed.

(** What [entries()] holds under each key: nothing for a key the store does
    not allow to read and nothing for ["__proto__"]; for any other readable
    key, the [entries()] of the store that the value is or yields, or the
    primitive that it is or yields when that primitive is truthy, and nothing
    otherwise. *)
Lemma entries_get depth h this o :
  NoDup (map fst (storeEntries (deref h this))) →
  entries (S depth) h this = Some o →
  ∀ key,
    JsMap.get o key =
      if allowedToRead (deref h this) key && negb (String.eqb key "__proto__") then
        match JsMap.get (storeEntries (deref h this)) key with
        | Some value =>
            match assigned (entries depth h) value with
            | Some v => v
            | None => None
            end
        | None => None
        end
      else None.
Proof.
  intros Hnd Ho key. simpl in Ho.
  rewrite (entries_forEach_get _ _ _ Hnd _ _ Ho key). simpl.
  destruct (JsMap.get (storeEntries (deref h this)) key) as [value|];
    [|by destruct (_ && _)].
  destruct (_ && _); [|done].
  by destruct (assigned (entries depth h) value) as [[]|].
Qed.

(** C2, at the inputs where the code departs from it.  A store that allows
    every read and holds a falsy primitive ([0], [""], [false] or [null])
    under ["a"], as [write("a", p)] on a new store leaves it, has that
    primitive as the raw value of ["a"], and yet [entries()] returns the empty
    object: the tests at lines 154 and 155 are tests of truthiness. *)
Theorem entries_omits_falsy_primitives (depth : nat) :
  Forall
    (λ p,
       let h := (write 0 (Some "a") (primitive p) [new_Store]).1 in
       allowedToRead (deref h 0) "a" = true ∧
       storeEntries_get (deref h 0) "a" = Direct (IsPrimitive p) ∧
       entries (S depth) h 0 = Some [])
    [JNumber 0; JString ""; JBoolean false; JNull].
Proof. by repeat constructor. Qed.

(** A truthy primitive is in the output. *)
Lemma entries_keeps_truthy_primitive (depth : nat) :
  let h := (write 0 (Some "a") (primitive (JNumber 1)) [new_Store]).1 in
  entries (S depth) h 0 = Some [("a", JPrimitive (JNumber 1))].
Proof. done. Qed.

(** ** Empty path segments *)

(** C9 as stated fails: a path that splits to an empty segment is not
    rejected.  [write("", 5)] on a new store returns. *)
Lemma empty_segment_counterexample :
  ¬ (∀ (h : Heap) (this : loc) (path : string) (value : StoreValue),
       In "" (split colon path) →
       (∃ e, write this (Some path) value h = (h, Throw e)) ∧
       (∃ e, read h this (Some path) = Throw e)).
Proof.
  intros Hall.
  destruct (Hall [new_Store] 0 "" (primitive (JNumber 5)) ltac:(by left))
    as [[e He] _].
  discriminate He.
Qed.

(** [read] along any parts: the parts before the last are followed through
    the stores they resolve to, and the last part is read in the store
    reached. *)
Lemma read_parts_rule h heads key :
  ∀ this,
    read_parts h (heads ++ [key]) this =
      match descend h heads this with
      | None => Throw PathIncorrect
      | Some terminal =>
          if allowedToRead (deref h terminal) key
          then Return (call (storeEntries_get (deref h terminal) key))
          else Throw (ReadAccessDenied key)
      end.
Proof.
  induction heads as [|head heads IH]; intros this.
  - simpl. destruct (allowedToRead (deref h this) key); simpl; [|done].
    by destruct (storeEntries_get (deref h this) key).
  - change (read_parts h (head :: (heads ++ [key])) this = 
            match descend h (head :: heads) this with
            | None => Throw PathIncorrect
            | Some terminal =>
                if allowedToRead (deref h terminal) key
                then Return (call (storeEntries_get (deref h terminal) key))
                else Throw (ReadAccessDenied key)
            end).
    rewrite read_parts_cons by by destruct heads. simpl.
    by destruct (storeEntries_get (deref h this) head) as [[store| |]|[store| |]];
      simpl; rewrite ?IH.
Qed.

(** [write] along any parts throws exactly when [write_denied] finds a part,
    and then names that part and leaves the heap as it was. *)
Section write_parts_rule.
Variable write_entry : string → loc → M unit.
Hypothesis entry_denied :
  ∀ path this h,
    allowedToWrite (deref h this) path = false →
    write_entry path this h = (h, Throw (WriteAccessDenied path)).
Hypothesis entry_allowed :
  ∀ path this h,
    allowedToWrite (deref h this) path = true →
    ∃ h', write_entry path this h = (h', Return tt).

Lemma write_parts_rule pathParts :
  ∀ h this,
    match write_denied h pathParts this with
    | Some denied =>
        In denied pathParts ∧
        write_parts write_entry pathParts this h
          = (h, Throw (WriteAccessDenied denied))
    | None => ∃ h', write_parts write_entry pathParts this h = (h', Return tt)
    end.
Proof.
  induction pathParts as [|head rest IH]; intros h this; [by exists h|].
  destruct (decide (rest = [])) as [->|Hne].
  - simpl. destruct (allowedToWrite (deref h this) head) eqn:Hw.
    + by apply entry_allowed.
    + split; [by left|by apply entry_denied].
  - assert (write_denied h (head :: rest) this =
              match as_Store (storeEntries_get (deref h this) head) with
              | Some store => write_denied h rest store
              | None =>
                  if allowedToWrite (deref h this) head then None else Some head
              end) as -> by by destruct rest.
    rewrite write_parts_cons by done. unfold bind.
    destruct (as_Store (storeEntries_get (deref h this) head)) as [store|]; simpl.
    + specialize (IH h store).
      destruct (write_denied h rest store) as [denied|].
      * destruct IH as [Hin ->]. split; [by right|done].
      * destruct IH as [h' ->]. simpl. by eexists.
    + destruct (allowedToWrite (deref h this) head); simpl.
      * destruct (write_parts_new write_entry entry_allowed rest
                    (h ++ [new_Store]) (length h) (deref_new _ _)) as [h1 ->].
        simpl. by eexists.
      * split; [by left|done].
Qed.
End write_parts_rule.

Lemma write_value_denied value path this h :
  allowedToWrite (deref h this) path = false →
  write_value value path this h = (h, Throw (WriteAccessDenied path)).
Proof. intros Hw. unfold write_value. by rewrite Hw. Qed.

(** Every path has a last part. *)
Lemma split_last_part path : ∃ heads key, split colon path = heads ++ [key].
Proof.
  destruct (split colon path) as [|part parts] eqn:Hs using rev_ind.
  - by destruct (split_not_nil colon path).
  - by exists parts, part.
Qed.

(** C9, amended.  [read] and [write] do not look for empty segments: every
    path is handled by the same rules, whether or not a part of it is the
    empty string, and the empty string is a key like any other.

    For every store and every path, with its parts [heads ++ [key]] (every
    path has such parts, [split_last_part]):
    - [read] follows [heads] through the stores they resolve to and reads
      [key] in the store reached: it throws the invalid-path error exactly
      when a part of [heads] does not resolve to a store, and the access error
      exactly when the store reached does not allow reading [key];
    - [write] throws exactly when the first part that holds no store, or the
      last part, may not be written where it is reached; the error is then
      the access error that names this part, and the heap is unchanged;
      otherwise [write] returns;
    - under the conditions of the round trip, the [write] of a primitive
      returns, [heads] then lead to a store that holds the primitive under
      [key], and [read] returns it.

    In particular [""] splits to the one part [""], and [":b"], ["a:"] and
    ["a::b"] to parts of which one is [""]; [write("", v)] on a store that
    allows writing [""] puts [v] under the key [""], and [read("")] returns it
    where reading [""] is allowed; [write("a::b", v)] on a new store puts a
    store under the key [""] of the store under ["a"]. *)
Theorem empty_segment_is_a_key
    (h : Heap) (this : loc) (path key : string) (heads : list string) :
  split colon path = heads ++ [key] →
  read h this (Some path) =
    match descend h heads this with
    | None => Throw PathIncorrect
    | Some terminal =>
        if allowedToRead (deref h terminal) key
        then Return (call (storeEntries_get (deref h terminal) key))
        else Throw (ReadAccessDenied key)
    end ∧
  (∀ value,
     match write_denied h (heads ++ [key]) this with
     | Some denied =>
         In denied (heads ++ [key]) ∧
         write this (Some path) value h = (h, Throw (WriteAccessDenied denied))
     | None => ∃ h', write this (Some path) value h = (h', Return value)
     end) ∧
  (∀ val,
     heap_wf h → this < length h →
     path_allowed h (heads ++ [key]) this = true →
     final_step h (heads ++ [key]) this ∉ earlier_steps h (heads ++ [key]) this →
     ∃ h' terminal,
       write this (Some path) (primitive val) h = (h', Return (primitive val)) ∧
       descend h' heads this = Some terminal ∧
       call (storeEntries_get (deref h' terminal) key) = IsPrimitive val ∧
       read h' this (Some path) = Return (IsPrimitive val)) ∧
  (split colon "" = [""] ∧ split colon ":b" = [""; "b"] ∧
   split colon "a:" = ["a"; ""] ∧ split colon "a::b" = ["a"; ""; "b"]) ∧
  (∀ val,
     this < length h →
     allowedToWrite (deref h this) "" = true →
     let h' := alter (with_entry "" (Direct (IsPrimitive val))) this h in
     write this (Some "") (primitive val) h = (h', Return (primitive val)) ∧
     storeEntries_get (deref h' this) "" = Direct (IsPrimitive val) ∧
     (allowedToRead (deref h this) "" = true →
      read h' this (Some "") = Return (IsPrimitive val))) ∧
  (∀ val,
     write 0 (Some "a::b") (primitive val) [new_Store]
       = ([mkStore Perm_rw [] [("a", Direct (IsStore 1))];
           mkStore Perm_rw [] [("", Direct (IsStore 2))];
           mkStore Perm_rw [] [("b", Direct (IsPrimitive val))]],
          Return (primitive val))).
Proof.
  intros Hs. split_and!; [| | |done..| |done].
  - unfold read. rewrite Hs. apply read_parts_rule.
  - intros value.
    pose proof (write_parts_rule (write_value value)
                  (write_value_denied value) (write_value_allowed value)
                  (heads ++ [key]) h this) as Hrule.
    unfold write, bind. rewrite Hs.
    destruct (write_denied h (heads ++ [key]) this) as [denied|].
    + destruct Hrule as [Hin ->]. done.
    + destruct Hrule as [h' ->]. by exists h'.
  - intros val Hwf Hlt Hal Hfin.
    destruct (write_then_read_aliased val (heads ++ [key])
                ltac:(by destruct heads) h this Hwf Hlt Hal Hfin)
      as (h' & Hw & _ & _ & _ & _ & _ & Hread).
    pose proof Hread as Hrule. rewrite read_parts_rule in Hrule.
    destruct (descend h' heads this) as [terminal|] eqn:Hd; [|done].
    destruct (allowedToRead (deref h' terminal) key); [|done].
    injection Hrule as Hcall.
    exists h', terminal. split_and!; [|done|done|].
    + unfold primitive. rewrite write_of_primitive.
      unfold bind, write_primitive. by rewrite Hs, Hw.
    + unfold read. by rewrite Hs.
  - intros val Hlt Hw h'.
    assert (deref h' this
            = with_entry "" (Direct (IsPrimitive val)) (deref h this))
      as Hthis by by apply deref_alter_eq.
    split_and!.
    + unfold write, bind. change (split colon "") with [""].
      cbn [write_parts]. unfold write_value, primitive. by rewrite Hw.
    + by rewrite Hthis, get_with_entry_eq.
    + intros Hr. unfold read. change (split colon "") with [""].
      cbn [read_parts].
      by rewrite Hthis, allowedToRead_with_entry, Hr, get_with_entry_eq.
Qed.

Lemma empty_segment_is_a_key_witness :
  let h := [mkStore Perm_none [("", Perm_w)] [("", Direct (IsStore 1))];
            mkStore Perm_rw [("b", Perm_r)] []] in
  read h 0 (Some ":") = Return IsUndefined ∧
  (∃ h', write 0 (Some ":") (primitive (JString "v")) h
           = (h', Return (primitive (JString "v"))) ∧
         read h' 0 (Some ":") = Return (IsPrimitive (JString "v"))) ∧
  write 0 (Some ":b") (primitive (JString "v")) h
    = (h, Throw (WriteAccessDenied "b")) ∧
  (∃ h', write 0 (Some "::") (primitive (JString "v")) h
           = (h', Return (primitive (JString "v")))).
Proof.
  intros h.
  destruct (empty_segment_is_a_key h 0 ":" "" [""] eq_refl)
    as (Hread & _ & Hround & _).
  split_and!; [exact Hread| | |].
  - destruct (Hround (JString "v")) as (h' & terminal & Hw & _ & _ & Hr).
    + by apply heap_wfb_wf.
    + simpl. lia.
    + reflexivity.
    + exact (bool_decide_unpack ((1, "") ∉ [(0, "")]) I).
    + by exists h'.
  - exact (proj2 (proj1 (proj2 (empty_segment_is_a_key h 0 ":b" "b" [""] eq_refl))
                    (primitive (JString "v")))).
  - exact (proj1 (proj2 (empty_segment_is_a_key h 0 "::" "" [""; ""] eq_refl))
             (primitive (JString "v"))).
Defined.

(** * Further properties of the module *)

(** ** Permissions *)

(** X1.  A policy allows reading exactly when it is ["r"] or ["rw"] and
    writing exactly when it is ["w"] or ["rw"]; with the policy ["none"], or
    with the policy ["r"], nothing is written, and with ["none"] or ["w"]
    nothing is read. *)
Theorem permission_literals (s : Store) (key : string) :
  (allowedToRead s key = true ↔
   getPermission s key = Perm_r ∨ getPermission s key = Perm_rw) ∧
  (allowedToWrite s key = true ↔
   getPermission s key = Perm_w ∨ getPermission s key = Perm_rw) ∧
  (allowedToRead s key = false ↔
   getPermission s key = Perm_w ∨ getPermission s key = Perm_none) ∧
  (allowedToWrite s key = false ↔
   getPermission s key = Perm_r ∨ getPermission s key = Perm_none).
Proof.
  split_and!; [apply allowedToRead_policy|apply allowedToWrite_policy|..];
    unfold allowedToRead, allowedToWrite;
    destruct (getPermission s key); cbv; intuition congruence.
Qed.

(** X2.  An override set with [setPermission] is the policy of its key
    whatever the default policy and whatever override the key had; the policy
    of every other key, the default policy and the entries stay as they were.
    A key without override has the default policy. *)
Theorem override_precedence
    (s : Store) (key other : string) (permission : Permission) :
  key ≠ other →
  getPermission (setPermission s key permission) key = permission ∧
  getPermission (setPermission s key permission) other = getPermission s other ∧
  defaultPolicy (setPermission s key permission) = defaultPolicy s ∧
  storeEntries (setPermission s key permission) = storeEntries s ∧
  getPermission (mkStore (defaultPolicy s) [] (storeEntries s)) key
    = defaultPolicy s.
Proof.
  intros Hne. unfold getPermission, setPermission. simpl.
  by rewrite get_set_eq, get_set_ne.
Qed.

Lemma override_precedence_witness :
  let s := mkStore Perm_none [("k", Perm_r)] [] in
  getPermission (setPermission s "k" Perm_rw) "k" = Perm_rw ∧
  getPermission (setPermission s "k" Perm_rw) "j" = Perm_none.
Proof.
  intros s.
  destruct (override_precedence s "k" "j" Perm_rw ltac:(discriminate))
    as (Hk & Hj & _).
  split; [exact Hk|exact Hj].
Defined.

(** ** Single keys *)

(** X3.  [read] of a key that has no entry returns [undefined] when the store
    allows reading the key, and throws the access error when it does not:
    the permission is tested before the entry is looked up, and a missing
    entry is no error. *)
Theorem read_missing_key (h : Heap) (this : loc) (key : string) :
  split colon key = [key] →
  JsMap.get (storeEntries (deref h this)) key = None →
  read h this (Some key) =
    if allowedToRead (deref h this) key
    then Return IsUndefined
    else Throw (ReadAccessDenied key).
Proof.
  intros Hkey Hget. rewrite (read_single _ _ _ Hkey).
  unfold storeEntries_get. rewrite Hget.
  by destruct (allowedToRead (deref h this) key).
Qed.

Lemma read_missing_key_witness :
  read [mkStore Perm_rw [("k", Perm_w)] []] 0 (Some "j") = Return IsUndefined ∧
  read [mkStore Perm_rw [("k", Perm_w)] []] 0 (Some "k")
    = Throw (ReadAccessDenied "k").
Proof.
  split.
  - exact (read_missing_key [mkStore Perm_rw [("k", Perm_w)] []] 0 "j"
             eq_refl eq_refl).
  - exact (read_missing_key [mkStore Perm_rw [("k", Perm_w)] []] 0 "k"
             eq_refl eq_refl).
Defined.

(** X4.  On a key that the store allows to write and to read, a value that
    is not an object or array is stored as it is and read back: after
    [write(key, r)], for a store, primitive, [null] or [undefined] [r],
    [read(key)] returns [r]; after [write(key, f)] for a function [f],
    [read(key)] returns what [f] yields, the function staying in the entry. *)
Theorem write_read_key
    (h : Heap) (this : loc) (key : string) (result yields : StoreResult) :
  this < length h →
  split colon key = [key] →
  allowedToWrite (deref h this) key = true →
  allowedToRead (deref h this) key = true →
  (∃ h', write this (Some key) (OfResult result) h
           = (h', Return (OfResult result)) ∧
         storeEntries_get (deref h' this) key = Direct result ∧
         read h' this (Some key) = Return result) ∧
  (∃ h', write this (Some key) (OfFunction yields) h
           = (h', Return (OfFunction yields)) ∧
         storeEntries_get (deref h' this) key = Deferred yields ∧
         read h' this (Some key) = Return yields).
Proof.
  intros Hlt Hkey Hw Hr.
  split; eexists; (split_and!;
    [unfold write, bind; rewrite Hkey; cbn [write_parts];
     unfold write_value; rewrite Hw; reflexivity
    |by rewrite deref_alter_eq, get_with_entry_eq
    |rewrite (read_single _ _ _ Hkey), deref_alter_eq by done;
     by rewrite allowedToRead_with_entry, Hr, get_with_entry_eq]).
Qed.

Lemma write_read_key_witness :
  let h := [mkStore Perm_none [("k", Perm_rw)] []; new_Store] in
  (∃ h', write 0 (Some "k") (OfResult (IsStore 1)) h
           = (h', Return (OfResult (IsStore 1))) ∧
         read h' 0 (Some "k") = Return (IsStore 1)) ∧
  (∃ h', write 0 (Some "k") (OfFunction (IsPrimitive JNull)) h
           = (h', Return (OfFunction (IsPrimitive JNull))) ∧
         read h' 0 (Some "k") = Return (IsPrimitive JNull)).
Proof.
  intros h.
  destruct (write_read_key h 0 "k" (IsStore 1) (IsPrimitive JNull)
              ltac:(simpl; lia) eq_refl eq_refl eq_refl)
    as [(h1 & Hw1 & _ & Hr1) (h2 & Hw2 & _ & Hr2)].
  split; [by exists h1|by exists h2].
Defined.

(** ** What [write] does to the heap *)

Lemma mutates_trans h1 h2 h3 : mutates h1 h2 → mutates h2 h3 → mutates h1 h3.
Proof.
  induction 1 as [h|h h' _ IH|h h' this key value _ IH]; intros H3; [done|..].
  - apply mutates_new. by apply IH.
  - eapply mutates_set. by apply IH.
Qed.

Lemma storeEntries_set_mutates this key value h :
  mutates h (storeEntries_set this key value h).1.
Proof. eapply mutates_set. apply mutates_refl. Qed.

Section write_parts_mutates.
Variable write_entry : string → loc → M unit.
Hypothesis entry_mutates :
  ∀ path this h, mutates h (write_entry path this h).1.

Lemma write_parts_mutates pathParts :
  ∀ this h, mutates h (write_parts write_entry pathParts this h).1.
Proof.
  induction pathParts as [|head rest IH]; intros this h; [apply mutates_refl|].
  destruct (decide (rest = [])) as [->|Hne]; [apply entry_mutates|].
  rewrite write_parts_cons by done. unfold bind.
  destruct (as_Store (storeEntries_get (deref h this) head)) as [store|]; simpl.
  - pose proof (IH store h) as Hrest.
    destruct (write_parts write_entry rest store h) as [h1 [[]|e]]; simpl in *;
      [|done].
    eapply mutates_trans; [done|]. apply storeEntries_set_mutates.
  - destruct (allowedToWrite (deref h this) head); simpl; [|apply mutates_refl].
    apply mutates_new.
    pose proof (IH (length h) (h ++ [new_Store])) as Hrest.
    destruct (write_parts write_entry rest (length h) (h ++ [new_Store]))
      as [h1 [[]|e]]; simpl in *; [|done].
    eapply mutates_trans; [done|]. apply storeEntries_set_mutates.
Qed.
End write_parts_mutates.

Lemma write_direct_mutates value path this h :
  mutates h (write_direct value path this h).1.
Proof.
  unfold write_direct.
  destruct (allowedToWrite (deref h this) path); simpl;
    [apply storeEntries_set_mutates|apply mutates_refl].
Qed.

Lemma forEach_mutates {A} (f : A → M unit) (l : list A) :
  (∀ x h, mutates h (f x h).1) → ∀ h, mutates h (forEach l f h).1.
Proof.
  intros Hf. induction l as [|x l IH]; intros h; [apply mutates_refl|].
  simpl. unfold bind. pose proof (Hf x h) as Hx.
  destruct (f x h) as [h1 [[]|e]]; simpl in *; [|done].
  eapply mutates_trans; [done|apply IH].
Qed.

Lemma write_composite_mutates value path this h :
  mutates h (write_composite value path this h).1.
Proof.
  unfold write_composite, bind. simpl. apply mutates_new.
  pose proof (forEach_mutates
                (λ kv, write_primitive (length h) kv.1 kv.2)
                (getAllPathFromJsonValue value [])
                (λ kv h0, write_parts_mutates _ (write_direct_mutates _)
                            _ _ h0)
                (h ++ [new_Store])) as Hloop.
  destruct (forEach _ _ _) as [h1 [[]|e]]; simpl in *; [|done].
  eapply mutates_trans; [done|]. apply storeEntries_set_mutates.
Qed.

Lemma write_value_mutates value path this h :
  mutates h (write_value value path this h).1.
Proof.
  unfold write_value.
  destruct (allowedToWrite (deref h this) path); simpl; [|apply mutates_refl].
  destruct value; first [apply write_composite_mutates
                        |apply storeEntries_set_mutates].
Qed.

Lemma write_mutates this path value h : mutates h (write this path value h).1.
Proof.
  destruct path as [path|]; simpl; [|apply mutates_refl].
  unfold bind.
  pose proof (write_parts_mutates _ (write_value_mutates value)
                (split colon path) this h) as Hparts.
  by destruct (write_parts _ _ _ _) as [h1 [[]|e]].
Qed.

(** A new store does not change what any location reads as. *)
Lemma deref_app_new h l : deref (h ++ [new_Store]) l = deref h l.
Proof.
  destruct (decide (l < length h)) as [Hlt|Hge]; [by apply deref_app_l|].
  destruct (decide (l = length h)) as [->|Hne].
  - by rewrite deref_new, deref_dangling.
  - rewrite !deref_dangling; [done|lia|]. rewrite length_app. simpl. lia.
Qed.

Lemma mutates_keeps h h' :
  mutates h h' →
  length h ≤ length h' ∧
  ∀ l,
    defaultPolicy (deref h' l) = defaultPolicy (deref h l) ∧
    permissionMap (deref h' l) = permissionMap (deref h l) ∧
    ∀ key, is_Some (JsMap.get (storeEntries (deref h l)) key) →
           is_Some (JsMap.get (storeEntries (deref h' l)) key).
Proof.
  induction 1 as [h|h h' _ [IHlen IH]|h h' this key value _ [IHlen IH]].
  - done.
  - rewrite length_app in IHlen. simpl in IHlen. split; [lia|]. intros l.
    destruct (IH l) as (Hd & Hp & Hk). by rewrite deref_app_new in Hd, Hp, Hk.
  - rewrite length_alter in IHlen. split; [done|]. intros l.
    destruct (IH l) as (Hd & Hp & Hk).
    destruct (decide (this = l)) as [->|Hne];
      [|by rewrite deref_alter_ne in Hd, Hp, Hk].
    destruct (decide (l < length h)) as [Hlt|Hge].
    + rewrite deref_alter_eq in Hd, Hp, Hk by done.
      split_and!; [done..|]. intros k Hsome. apply Hk. simpl.
      apply get_set_is_Some. by right.
    + assert (deref (alter (with_entry key value) l h) l = deref h l) as Heq.
      { apply deref_lookup. rewrite list_lookup_alter_eq.
        by rewrite lookup_ge_None_2 by lia. }
      by rewrite Heq in Hd, Hp, Hk.
Qed.

(** X5.  Whatever the path, the value and the outcome, [write] only adds
    stores to the heap and sets entries: no store of the heap before is
    removed, none has its default policy or its permission overrides changed,
    none loses a key of its entries, and every store that is added has the
    default policy ["rw"] and no override. *)
Theorem write_only_adds
    (h h' : Heap) (this : loc) (path : option string) (value : StoreValue)
    (o : Outcome StoreValue) :
  write this path value h = (h', o) →
  length h ≤ length h' ∧
  (∀ l, l < length h →
     defaultPolicy (deref h' l) = defaultPolicy (deref h l) ∧
     permissionMap (deref h' l) = permissionMap (deref h l) ∧
     ∀ key, is_Some (JsMap.get (storeEntries (deref h l)) key) →
            is_Some (JsMap.get (storeEntries (deref h' l)) key)) ∧
  (∀ l, length h ≤ l →
     defaultPolicy (deref h' l) = Perm_rw ∧ permissionMap (deref h' l) = []).
Proof.
  intros Hw. pose proof (write_mutates this path value h) as Hm.
  rewrite Hw in Hm. simpl in Hm. apply mutates_keeps in Hm as [Hlen Hkeep].
  split_and!; [done|intros l _; apply Hkeep|].
  intros l Hl. destruct (Hkeep l) as (Hd & Hp & _).
  by rewrite (deref_dangling h l Hl) in Hd, Hp.
Qed.

Lemma write_only_adds_witness :
  let h := [mkStore Perm_w [("a", Perm_r)] [("a", Direct (IsPrimitive JNull))]] in
  let h' := (write 0 (Some "b:c") (OfArray [JPrimitive JNull]) h).1 in
  length h ≤ length h' ∧
  permissionMap (deref h' 0) = [("a", Perm_r)] ∧
  is_Some (JsMap.get (storeEntries (deref h' 0)) "a") ∧
  defaultPolicy (deref h' 2) = Perm_rw.
Proof.
  intros h h'.
  destruct (write_only_adds h h' 0 (Some "b:c") (OfArray [JPrimitive JNull])
              (Return (OfArray [JPrimitive JNull])) eq_refl)
    as (Hlen & Hold & Hnew).
  destruct (Hold 0 ltac:(simpl; lia)) as (_ & Hp & Hk).
  split_and!; [exact Hlen|exact Hp|apply Hk; by eexists|].
  exact (proj1 (Hnew 2 ltac:(simpl; lia))).
Defined.

(** A single-part [write] that is allowed: what it puts under the key, and
    what it leaves alone. *)
Lemma write_value_stored value path this h :
  this < length h →
  allowedToWrite (deref h this) path = true →
  ∃ h',
    write_value value path this h = (h', Return tt) ∧
    length h ≤ length h' ∧
    deref h' this = with_entry path (stored value h) (deref h this) ∧
    (∀ l, l < length h → l ≠ this → h' !! l = h !! l).
Proof.
  intros Hlt Hw.
  assert (∀ json,
            ∃ h', write_composite json path this h = (h', Return tt) ∧
                  length h ≤ length h' ∧
                  deref h' this
                    = with_entry path (Direct (IsStore (length h))) (deref h this) ∧
                  (∀ l, l < length h → l ≠ this → h' !! l = h !! l)) as Hcomposite.
  { intros json.
    destruct (write_composite_returns json path this h) as (h1 & -> & Ht & Hlen).
    assert (∀ l, l < length h → h1 !! l = h !! l) as Hold.
    { intros l Hl. rewrite <- (lookup_take_lt h1 (length h) l Hl).
      by rewrite Ht. }
    eexists. split_and!; [done|rewrite length_alter; lia| |].
    - rewrite deref_alter_eq by lia. by rewrite (deref_lookup _ _ _ (Hold this Hlt)).
    - intros l Hl Hne. rewrite list_lookup_alter_ne by done. by apply Hold. }
  unfold write_value. rewrite Hw. simpl.
  destruct value as [fields|items|result|yields]; simpl;
    [apply Hcomposite..| |];
    (eexists; split_and!;
       [done|by rewrite length_alter|by apply deref_alter_eq
       |by intros l _ Hne; apply list_lookup_alter_ne]).
Qed.

(** The stores that the expansion of an object or array creates do not
    depend on the stores that were there. *)
Lemma same_from_deref n h1 h2 l :
  same_from n h1 h2 → n ≤ l → deref h1 l = deref h2 l.
Proof. intros [_ Hsame] Hl. by apply deref_lookup, Hsame. Qed.

Lemma same_from_unattached n h1 h2 :
  same_from n h1 h2 → unattached n h1 → unattached n h2.
Proof.
  intros Hsame Hun l Hl1 Hl2.
  rewrite <- (same_from_deref _ _ _ _ Hsame Hl1).
  destruct Hsame as [Hlen _]. rewrite <- Hlen in *. by apply Hun.
Qed.

Lemma same_from_new n h1 h2 :
  same_from n h1 h2 → same_from n (h1 ++ [new_Store]) (h2 ++ [new_Store]).
Proof.
  intros [Hlen Hsame]. split; [by rewrite !length_app, Hlen|].
  intros l Hl. destruct (decide (l < length h1)) as [Hlt|Hge].
  - rewrite !lookup_app_l by lia. by apply Hsame.
  - rewrite !lookup_app_r by lia. by rewrite Hlen.
Qed.

Lemma same_from_alter n h1 h2 (f : Store → Store) this :
  same_from n h1 h2 → same_from n (alter f this h1) (alter f this h2).
Proof.
  intros [Hlen Hsame]. split; [by rewrite !length_alter|].
  intros l Hl. destruct (decide (this = l)) as [->|Hne].
  - by rewrite !list_lookup_alter_eq, Hsame.
  - rewrite !list_lookup_alter_ne by done. by apply Hsame.
Qed.

Lemma write_parts_same_from n val pathParts :
  ∀ h1 h2 this,
    n ≤ this → this < length h1 → unattached n h1 → same_from n h1 h2 →
    ∃ h1' h2',
      write_parts (write_direct (Direct (IsPrimitive val))) pathParts this h1
        = (h1', Return tt) ∧
      write_parts (write_direct (Direct (IsPrimitive val))) pathParts this h2
        = (h2', Return tt) ∧
      same_from n h1' h2' ∧ unattached n h1' ∧ length h1 ≤ length h1'.
Proof.
  induction pathParts as [|head rest IH]; intros h1 h2 this Hn Hlt Hun Hsame.
  { by exists h1, h2. }
  destruct (Hun this Hn Hlt) as [Hw Hr].
  pose proof (same_from_deref _ _ _ _ Hsame Hn) as Hthis.
  destruct (decide (rest = [])) as [->|Hne].
  - simpl. unfold write_direct. rewrite <- Hthis, Hw. simpl.
    eexists _, _. split_and!; [done..| | |by rewrite length_alter].
    + by apply same_from_alter.
    + by apply unattached_with_entry.
  - rewrite !write_parts_cons by done. unfold bind. rewrite <- Hthis.
    destruct (as_Store (storeEntries_get (deref h1 this) head))
      as [store|] eqn:He; simpl.
    + destruct (Hr _ _ He) as [Hs1 Hs2].
      destruct (IH h1 h2 store Hs1 Hs2 Hun Hsame)
        as (h1' & h2' & -> & -> & Hsame' & Hun' & Hlen').
      simpl. eexists _, _.
      split_and!; [done..| | |rewrite length_alter; lia].
      * by apply same_from_alter.
      * apply unattached_with_entry; [done|]. intros ? [= <-]. lia.
    + rewrite Hw. simpl. destruct Hsame as [Hlen Hsame].
      rewrite <- Hlen.
      destruct (IH (h1 ++ [new_Store]) (h2 ++ [new_Store]) (length h1))
        as (h1' & h2' & -> & -> & Hsame' & Hun' & Hlen').
      { lia. } { rewrite length_app. simpl. lia. } { by apply unattached_new. }
      { by apply same_from_new. }
      rewrite length_app in Hlen'. simpl in *. eexists _, _.
      split_and!; [done..| | |rewrite length_alter; lia].
      * by apply same_from_alter.
      * apply unattached_with_entry; [done|]. intros ? [= <-]. lia.
Qed.

Lemma forEach_write_primitive_same_from n store pathValueMap :
  ∀ h1 h2,
    n ≤ store → store < length h1 → unattached n h1 → same_from n h1 h2 →
    ∃ h1' h2',
      forEach pathValueMap (λ kv, write_primitive store kv.1 kv.2) h1
        = (h1', Return tt) ∧
      forEach pathValueMap (λ kv, write_primitive store kv.1 kv.2) h2
        = (h2', Return tt) ∧
      same_from n h1' h2' ∧ unattached n h1' ∧ length h1 ≤ length h1'.
Proof.
  induction pathValueMap as [|[key val] m IH]; intros h1 h2 Hn Hlt Hun Hsame.
  { by exists h1, h2. }
  simpl. unfold bind. unfold write_primitive at 1 3.
  destruct (write_parts_same_from n val (split colon key) h1 h2 store
              Hn Hlt Hun Hsame) as (h1a & h2a & -> & -> & Hsame1 & Hun1 & Hlen1).
  destruct (IH h1a h2a Hn ltac:(lia) Hun1 Hsame1)
    as (h1' & h2' & -> & -> & Hsame2 & Hun2 & Hlen2).
  exists h1', h2'. split_and!; [done..|lia].
Qed.

Lemma write_composite_same_from json path this h1 h2 :
  length h1 = length h2 →
  same_from (length h1)
    (write_composite json path this h1).1 (write_composite json path this h2).1.
Proof.
  intros Hlen. unfold write_composite, bind. simpl. rewrite <- Hlen.
  destruct (forEach_write_primitive_same_from (length h1) (length h1)
              (getAllPathFromJsonValue json [])
              (h1 ++ [new_Store]) (h2 ++ [new_Store]))
    as (h1' & h2' & -> & -> & Hsame & _).
  { done. } { rewrite length_app. simpl. lia. }
  { intros l Hl1 Hl2. rewrite length_app in Hl2. simpl in Hl2.
    assert (l = length h1) as -> by lia. by rewrite deref_new. }
  { split; [by rewrite !length_app, Hlen|]. intros l Hl.
    rewrite !lookup_app_r by lia. by rewrite Hlen. }
  simpl. by apply same_from_alter.
Qed.

(** X6.  [write] of an object or array on a key that may be written always
    returns and replaces what the key held: the entry becomes a store that
    the heap did not hold before, nothing else changes in the store written
    to, and every other store of the heap before, the store that the key
    held included, is as it was.  The stores that the write creates are the
    same whatever the stores before hold: the same write in any other heap
    with as many stores creates the same ones, so that nothing of a store
    already under the key is in them.  There is no merge. *)
Theorem composite_write_replaces
    (h : Heap) (this : loc) (key : string) (json : JSONValue) :
  this < length h →
  split colon key = [key] →
  allowedToWrite (deref h this) key = true →
  (∀ p, json ≠ JPrimitive p) →
  ∃ h',
    write this (Some key) (as_StoreValue json) h
      = (h', Return (as_StoreValue json)) ∧
    h !! length h = None ∧
    deref h' this = with_entry key (Direct (IsStore (length h))) (deref h this) ∧
    (∀ l, l < length h → l ≠ this → h' !! l = h !! l) ∧
    (∀ h2, length h2 = length h →
           allowedToWrite (deref h2 this) key = true →
           ∀ l, length h ≤ l →
                (write this (Some key) (as_StoreValue json) h2).1 !! l = h' !! l).
Proof.
  intros Hlt Hkey Hw Hjson.
  destruct (write_value_stored (as_StoreValue json) key this h Hlt Hw)
    as (h' & Hrun & _ & Hthis & Hframe).
  assert (∀ h0, allowedToWrite (deref h0 this) key = true →
                (write this (Some key) (as_StoreValue json) h0).1
                = (write_composite json key this h0).1) as Hcomposite.
  { intros h0 Hw0. unfold write, bind. rewrite Hkey. cbn [write_parts].
    unfold write_value. rewrite Hw0. simpl.
    destruct json as [p| |]; [by destruct (Hjson p)|..]; simpl;
      by destruct (write_composite _ _ _ _) as [? []]. }
  assert (write this (Some key) (as_StoreValue json) h
          = (h', Return (as_StoreValue json))) as Hwrite.
  { unfold write, bind. rewrite Hkey. cbn [write_parts]. by rewrite Hrun. }
  assert (h' = (write_composite json key this h).1) as Hh'.
  { rewrite <- Hcomposite by done. by rewrite Hwrite. }
  exists h'. split_and!; [done|by apply lookup_ge_None_2| |done|].
  - rewrite Hthis. by destruct json as [p| |]; [destruct (Hjson p)|..].
  - intros h2 Hlen Hw2 l Hl. rewrite Hcomposite, Hh' by done.
    apply (write_composite_same_from json key this h2 h Hlen). by rewrite Hlen.
Qed.

Lemma composite_write_replaces_witness :
  let h := [mkStore Perm_w [] [("a", Direct (IsStore 1))];
            mkStore Perm_rw [] [("old", Direct (IsPrimitive (JBoolean true)))]] in
  ∃ h',
    write 0 (Some "a") (OfObject [("new", JPrimitive JNull)]) h
      = (h', Return (OfObject [("new", JPrimitive JNull)])) ∧
    storeEntries_get (deref h' 0) "a" = Direct (IsStore 2) ∧
    h' !! 1 = h !! 1 ∧
    h' !! 2 = Some (mkStore Perm_rw [] [("new", Direct (IsPrimitive JNull))]).
Proof.
  intros h.
  destruct (composite_write_replaces h 0 "a" (JObject [("new", JPrimitive JNull)])
              ltac:(simpl; lia) eq_refl eq_refl ltac:(discriminate))
    as (h' & Hw & _ & Hthis & Hframe & Hsame).
  exists h'.
  split_and!; [exact Hw| |exact (Hframe 1 ltac:(simpl; lia) ltac:(lia))|].
  - rewrite Hthis. apply get_with_entry_eq.
  - symmetry.
    exact (Hsame [new_Store; new_Store] eq_refl eq_refl 2 ltac:(simpl; lia)).
Defined.

(** X7.  [write] of a primitive on a path of several parts whose head holds
    no store (nothing, a primitive, or a function, even one that yields a
    store) and may be written: a new store is put under the head in place of
    what was there, the rest of the path is written into it, every other
    store of the heap before is as it was (the store that a function under
    the head yields is not written to), and [read] of the path then returns
    the primitive. *)
Theorem write_replaces_non_store_head
    (h : Heap) (this : loc) (path head : string) (rest : list string)
    (val : JSONPrimitive) :
  heap_wf h → this < length h →
  split colon path = head :: rest → rest ≠ [] →
  as_Store (storeEntries_get (deref h this) head) = None →
  allowedToWrite (deref h this) head = true →
  ∃ h',
    write this (Some path) (primitive val) h = (h', Return (primitive val)) ∧
    h !! length h = None ∧
    deref h' this = with_entry head (Direct (IsStore (length h))) (deref h this) ∧
    (∀ l, l < length h → l ≠ this → h' !! l = h !! l) ∧
    read h' this (Some path) = Return (IsPrimitive val).
Proof.
  intros Hwf Hlt Hs Hne He Hw.
  destruct (write_then_read val rest Hne (h ++ [new_Store]) (length h))
    as (h1 & Hw1 & Hlen & Hframe & Hread).
  { by apply heap_wf_new. }
  { rewrite length_app. simpl. lia. }
  { apply path_allowed_new, deref_new. }
  { rewrite visited_new by apply deref_new. apply NoDup_singleton. }
  rewrite visited_new in Hframe, Hread by apply deref_new.
  rewrite length_app in Hlen, Hframe, Hread. simpl in Hlen, Hframe, Hread.
  assert (∀ l, l < length h → h1 !! l = h !! l) as Hold.
  { intros l Hl. rewrite Hframe; [by apply lookup_app_l|lia|].
    rewrite list_elem_of_singleton. lia. }
  exists (alter (with_entry head (Direct (IsStore (length h)))) this h1).
  split_and!.
  - unfold primitive. rewrite write_of_primitive. unfold bind, write_primitive.
    rewrite Hs. by rewrite (write_parts_vivify _ _ _ _ _ h1 Hne He Hw Hw1).
  - by apply lookup_ge_None_2.
  - rewrite deref_alter_eq by lia. by rewrite (deref_lookup _ _ _ (Hold this Hlt)).
  - intros l Hl Hl'. rewrite list_lookup_alter_ne by done. by apply Hold.
  - unfold read. rewrite Hs, read_parts_cons by done.
    rewrite deref_alter_eq by lia. rewrite get_with_entry_eq.
    apply Hread. intros l Hl.
    assert (length h ≤ l) as Hge.
    { destruct Hl as [->%list_elem_of_singleton|]; lia. }
    apply list_lookup_alter_ne. lia.
Qed.

Lemma write_replaces_non_store_head_witness :
  let h := [mkStore Perm_rw [] [("f", Deferred (IsStore 1))];
            mkStore Perm_rw [] [("k", Direct (IsPrimitive (JNumber 1)))]] in
  ∃ h',
    write 0 (Some "f:k") (primitive (JNumber 2)) h
      = (h', Return (primitive (JNumber 2))) ∧
    storeEntries_get (deref h' 0) "f" = Direct (IsStore 2) ∧
    h' !! 1 = h !! 1 ∧
    read h' 0 (Some "f:k") = Return (IsPrimitive (JNumber 2)).
Proof.
  intros h.
  destruct (write_replaces_non_store_head h 0 "f:k" "f" ["k"] (JNumber 2)
              (heap_wfb_wf h eq_refl) ltac:(simpl; lia) eq_refl
              ltac:(discriminate) eq_refl eq_refl)
    as (h' & Hw & _ & Hthis & Hframe & Hr).
  exists h'.
  split_and!; [exact Hw| |exact (Hframe 1 ltac:(simpl; lia) ltac:(lia))|exact Hr].
  rewrite Hthis. apply get_with_entry_eq.
Defined.

(** X8.  On a path of several parts, [write] tests the permission of the
    head only when it has to create a store.  When the head holds a store,
    the [write] is the [write] of the remaining path in that store followed
    by putting the store back under the head, whatever the policy of the
    head; when the head holds no store and may not be written, the [write]
    throws the access error for the head and the heap is as it was. *)
Theorem write_tests_head_only_to_create
    (h : Heap) (this : loc) (path head : string) (rest : list string)
    (value : StoreValue) :
  split colon path = head :: rest → rest ≠ [] →
  (∀ store h1 v,
     as_Store (storeEntries_get (deref h this) head) = Some store →
     write store (Some (join colon rest)) value h = (h1, Return v) →
     write this (Some path) value h
       = (alter (with_entry head (Direct (IsStore store))) this h1,
          Return value)) ∧
  (∀ store h1 e,
     as_Store (storeEntries_get (deref h this) head) = Some store →
     write store (Some (join colon rest)) value h = (h1, Throw e) →
     write this (Some path) value h = (h1, Throw e)) ∧
  (as_Store (storeEntries_get (deref h this) head) = None →
   allowedToWrite (deref h this) head = false →
   write this (Some path) value h = (h, Throw (WriteAccessDenied head))).
Proof.
  intros Hs Hne. rewrite (write_several _ _ _ _ _ _ Hs Hne).
  split_and!.
  - intros store h1 v -> Hrest.
    rewrite (bind_Return _ _ h h store eq_refl).
    by rewrite (bind_Return _ _ _ _ _ Hrest).
  - intros store h1 e -> Hrest.
    rewrite (bind_Return _ _ h h store eq_refl).
    by rewrite (bind_Throw _ _ _ _ _ Hrest).
  - by intros -> ->.
Qed.

Lemma write_tests_head_only_to_create_witness :
  let h := [mkStore Perm_none [] [("a", Direct (IsStore 1))]; new_Store] in
  allowedToWrite (deref h 0) "a" = false ∧
  write 0 (Some "a:b") (primitive JNull) h
    = ([mkStore Perm_none [] [("a", Direct (IsStore 1))];
        mkStore Perm_rw [] [("b", Direct (IsPrimitive JNull))]],
       Return (primitive JNull)) ∧
  write 0 (Some "c:b") (primitive JNull) h = (h, Throw (WriteAccessDenied "c")).
Proof.
  intros h. split_and!; [reflexivity| |].
  - exact (proj1 (write_tests_head_only_to_create h 0 "a:b" "a" ["b"]
                    (primitive JNull) eq_refl ltac:(discriminate))
             1 _ (primitive JNull) eq_refl eq_refl).
  - exact (proj2 (proj2 (write_tests_head_only_to_create h 0 "c:b" "c" ["b"]
                           (primitive JNull) eq_refl ltac:(discriminate)))
             eq_refl eq_refl).
Defined.

(** ** [writeEntries] *)

Lemma forEach_app {A} (f : A → M unit) (l k : list A) h :
  forEach (l ++ k) f h = (forEach l f ;; forEach k f) h.
Proof.
  revert h. induction l as [|x l IH]; intros h; simpl; [done|].
  unfold bind in *. destruct (f x h) as [h1 [[]|e]]; [apply IH|done].
Qed.

Lemma writeEntries_cons this key value entries h :
  writeEntries this ((key, value) :: entries) h =
    (write this (Some key) (as_StoreValue value) ;; writeEntries this entries) h.
Proof.
  unfold writeEntries. simpl. unfold bind.
  change (match value with
          | JPrimitive p => OfResult (IsPrimitive p)
          | JArray items => OfArray items
          | JObject fields => OfObject fields
          end) with (as_StoreValue value).
  by destruct (write_parts _ _ _ _) as [h1 [[]|e]].
Qed.

(** A [write] that throws has changed nothing. *)
Lemma write_Throw_heap this path value h h' e :
  write this path value h = (h', Throw e) → h' = h.
Proof.
  destruct path as [path|]; simpl; [|by intros [= <- _]].
  unfold bind.
  destruct (write_parts (write_value value) (split colon path) this h)
    as [h1 [[]|e1]] eqn:Hparts; simpl; [done|].
  intros [= <- _].
  eapply write_parts_Throw; [apply write_value_Throw|apply write_value_allowed|done].
Qed.

(** X9.  [writeEntries] is not transactional: when the [write] of one
    property throws, the properties before it stay written, the ones after it
    are not written, and the error is the one of that [write]; the heap is the
    one that the properties before it left. *)
Theorem writeEntries_stops_at_first_throw
    (h h1 : Heap) (this : loc) (before after : JSONObject)
    (key : string) (value : JSONValue) (e : Error) :
  writeEntries this before h = (h1, Return tt) →
  (write this (Some key) (as_StoreValue value) h1).2 = Throw e →
  writeEntries this (before ++ (key, value) :: after) h = (h1, Throw e).
Proof.
  intros Hbefore Hthrow. unfold writeEntries at 1.
  rewrite forEach_app. fold (writeEntries this before).
  rewrite (bind_Return _ _ _ _ _ Hbefore).
  fold (writeEntries this ((key, value) :: after)). rewrite writeEntries_cons.
  destruct (write this (Some key) (as_StoreValue value) h1) as [h2 o] eqn:Hw.
  simpl in Hthrow. subst o.
  rewrite (bind_Throw _ _ _ _ _ Hw). f_equal. by eapply write_Throw_heap.
Qed.

Lemma writeEntries_stops_at_first_throw_witness :
  let h := [mkStore Perm_rw [("b", Perm_r)] []] in
  let entries := [("a", JPrimitive (JNumber 1)); ("b", JPrimitive (JNumber 2));
                  ("c", JPrimitive (JNumber 3))] in
  writeEntries 0 entries h
    = ([mkStore Perm_rw [("b", Perm_r)] [("a", Direct (IsPrimitive (JNumber 1)))]],
       Throw (WriteAccessDenied "b")).
Proof.
  intros h entries.
  exact (writeEntries_stops_at_first_throw h _ 0 [("a", JPrimitive (JNumber 1))]
           [("c", JPrimitive (JNumber 3))] "b" (JPrimitive (JNumber 2))
           (WriteAccessDenied "b") eq_refl eq_refl).
Defined.

(** What [writeEntries] leaves in the store, for colon-free keys that may be
    written. *)
Lemma writeEntries_stored this entries :
  ∀ h,
    this < length h →
    NoDup (map fst entries) →
    Forall (λ kv, split colon kv.1 = [kv.1] ∧
                  allowedToWrite (deref h this) kv.1 = true) entries →
    ∃ h',
      writeEntries this entries h = (h', Return tt) ∧
      length h ≤ length h' ∧
      defaultPolicy (deref h' this) = defaultPolicy (deref h this) ∧
      permissionMap (deref h' this) = permissionMap (deref h this) ∧
      (∀ key, key ∉ map fst entries →
              storeEntries_get (deref h' this) key
                = storeEntries_get (deref h this) key) ∧
      (∀ key value, (key, value) ∈ entries →
         match value with
         | JPrimitive p =>
             storeEntries_get (deref h' this) key = Direct (IsPrimitive p)
         | _ =>
             ∃ store, length h ≤ store ∧
                      storeEntries_get (deref h' this) key = Direct (IsStore store)
         end).
Proof.
  induction entries as [|[k v] entries IH]; intros h Hlt Hnd Hall.
  { exists h. split_and!; try done. intros ?? []%elem_of_nil. }
  simpl in Hnd. apply NoDup_cons in Hnd as [Hk Hnd].
  apply Forall_cons in Hall as [[Hkey Hw] Hall]. simpl in Hkey, Hw.
  destruct (write_value_stored (as_StoreValue v) k this h Hlt Hw)
    as (h1 & Hrun & Hlen1 & Hthis & _).
  assert (write this (Some k) (as_StoreValue v) h
          = (h1, Return (as_StoreValue v))) as Hwrite.
  { unfold write, bind. rewrite Hkey. cbn [write_parts]. by rewrite Hrun. }
  destruct (IH h1) as (h' & Hrest & Hlen & Hd & Hp & Hother & Hin);
    [lia|done| |].
  { eapply Forall_impl; [exact Hall|]. intros [k' v'] [? Hw']. split; [done|].
    simpl in *. unfold allowedToWrite, getPermission in *. by rewrite Hthis. }
  exists h'. rewrite writeEntries_cons, (bind_Return _ _ _ _ _ Hwrite).
  rewrite Hd, Hp, Hthis. split_and!; [done|lia|done|done| |].
  - intros key [Hne Hkey']%not_elem_of_cons. simpl in Hne.
    by rewrite Hother, Hthis, get_with_entry_ne.
  - intros key value [[= -> ->]|Hin']%elem_of_cons.
    + rewrite Hother, Hthis, get_with_entry_eq by done.
      destruct v; simpl; [done|by exists (length h)..].
    + specialize (Hin key value Hin').
      destruct value; [done|destruct Hin as (s & ? & ?); exists s; split; [lia|done]..].
Qed.

(** X10.  After [writeEntries] of an object whose keys are colon-free and
    may be written, every property is read back: [read(key)] returns the
    primitive of a primitive property, and for an object or array property
    the store it was expanded into, one that the heap did not hold before.
    The entries of the store under other keys are as they were. *)
Theorem writeEntries_then_read
    (h : Heap) (this : loc) (entries : JSONObject) :
  this < length h →
  NoDup (map fst entries) →
  Forall (λ kv, split colon kv.1 = [kv.1] ∧
                allowedToWrite (deref h this) kv.1 = true ∧
                allowedToRead (deref h this) kv.1 = true) entries →
  ∃ h',
    writeEntries this entries h = (h', Return tt) ∧
    (∀ key, key ∉ map fst entries →
            storeEntries_get (deref h' this) key
              = storeEntries_get (deref h this) key) ∧
    (∀ key value, (key, value) ∈ entries →
       match value with
       | JPrimitive p => read h' this (Some key) = Return (IsPrimitive p)
       | _ => ∃ store, h !! store = None ∧
                       read h' this (Some key) = Return (IsStore store)
       end).
Proof.
  intros Hlt Hnd Hall.
  destruct (writeEntries_stored this entries h Hlt Hnd)
    as (h' & Hrun & _ & Hd & Hp & Hother & Hin).
  { eapply Forall_impl; [exact Hall|]. by intros ? (? & ? & ?). }
  exists h'. split_and!; [done..|].
  intros key value Hkv. specialize (Hin key value Hkv).
  rewrite Forall_forall in Hall. destruct (Hall _ Hkv) as (Hkey & _ & Hr).
  simpl in Hkey, Hr.
  assert (allowedToRead (deref h' this) key = true) as Hr'.
  { unfold allowedToRead, getPermission in *. by rewrite Hd, Hp. }
  rewrite (read_single _ _ _ Hkey), Hr'. simpl.
  destruct value; [by rewrite Hin|..];
    destruct Hin as (s & Hs & ->); exists s;
    (split; [by apply lookup_ge_None_2|done]).
Qed.

Lemma writeEntries_then_read_witness :
  let h := [mkStore Perm_rw [] [("z", Direct (IsPrimitive JNull))]] in
  let entries := [("a", JPrimitive (JNumber 0)); ("b", JArray [JPrimitive JNull])] in
  ∃ h',
    writeEntries 0 entries h = (h', Return tt) ∧
    storeEntries_get (deref h' 0) "z" = Direct (IsPrimitive JNull) ∧
    read h' 0 (Some "a") = Return (IsPrimitive (JNumber 0)) ∧
    ∃ store, read h' 0 (Some "b") = Return (IsStore store).
Proof.
  intros h entries.
  destruct (writeEntries_then_read h 0 entries ltac:(simpl; lia))
    as (h' & Hrun & Hother & Hin).
  { exact (bool_decide_unpack (NoDup ["a"; "b"]) I). }
  { by repeat constructor. }
  exists h'. split_and!; [exact Hrun| | |].
  - exact (Hother "z" (bool_decide_unpack ("z" ∉ ["a"; "b"]) I)).
  - exact (Hin "a" (JPrimitive (JNumber 0)) ltac:(left)).
  - destruct (Hin "b" (JArray [JPrimitive JNull])) as (s & _ & Hs).
    + right. left.
    + by exists s.
Defined.

(** ** [writeEntries] and [entries] *)

Lemma set_append {V} (m : list (string * V)) k v :
  k ∉ map fst m → JsMap.set m k v = m ++ [(k, v)].
Proof.
  induction m as [|[k0 v0] m IH]; simpl; [done|].
  intros [Hne Hm]%not_elem_of_cons.
  apply not_eq_sym, String.eqb_neq in Hne as ->. by rewrite IH.
Qed.

Lemma writeEntries_primitives this (ps : list (string * JSONPrimitive)) :
  ∀ h,
    this < length h →
    NoDup (map fst ps) →
    (∀ k, k ∈ map fst ps → k ∉ map fst (storeEntries (deref h this))) →
    Forall (λ kv, split colon kv.1 = [kv.1] ∧
                  allowedToWrite (deref h this) kv.1 = true) ps →
    ∃ h',
      writeEntries this (map (λ kv, (kv.1, JPrimitive kv.2)) ps) h
        = (h', Return tt) ∧
      deref h' this =
        mkStore (defaultPolicy (deref h this)) (permissionMap (deref h this))
          (storeEntries (deref h this)
             ++ map (λ kv, (kv.1, Direct (IsPrimitive kv.2))) ps).
Proof.
  induction ps as [|[k p] ps IH]; intros h Hlt Hnd Hfresh Hall.
  { exists h. split; [done|]. simpl. rewrite app_nil_r. by destruct (deref h this). }
  simpl in Hnd. apply NoDup_cons in Hnd as [Hk Hnd].
  apply Forall_cons in Hall as [[Hkey Hw] Hall]. simpl in Hkey, Hw.
  destruct (write_value_stored (OfResult (IsPrimitive p)) k this h Hlt Hw)
    as (h1 & Hrun & Hlen1 & Hthis & _).
  assert (write this (Some k) (OfResult (IsPrimitive p)) h
          = (h1, Return (OfResult (IsPrimitive p)))) as Hwrite.
  { unfold write, bind. rewrite Hkey. cbn [write_parts]. by rewrite Hrun. }
  assert (storeEntries (deref h1 this)
          = storeEntries (deref h this) ++ [(k, Direct (IsPrimitive p))]) as Hes.
  { rewrite Hthis. simpl. apply set_append, Hfresh. by left. }
  destruct (IH h1) as (h' & Hrest & Hfinal); [lia|done| | |].
  { intros k' Hk'. rewrite Hes, map_app. simpl.
    rewrite elem_of_app, list_elem_of_singleton.
    intros [Hin| ->]; [|done]. by apply (Hfresh k'); [right|]. }
  { eapply Forall_impl; [exact Hall|]. intros [k' v'] [? Hw']. split; [done|].
    simpl in *. unfold allowedToWrite, getPermission in *. by rewrite Hthis. }
  exists h'. split.
  - simpl. by rewrite writeEntries_cons, (bind_Return _ _ _ _ _ Hwrite).
  - rewrite Hfinal, Hes, Hthis. simpl. by rewrite <- app_assoc.
Qed.

Lemma entries_forEach_primitives entries_of allowed
    (ps : list (string * JSONPrimitive)) :
  ∀ result,
    NoDup (map fst ps) →
    enumerated (map fst ps) = true →
    (∀ k, k ∈ map fst ps →
          (k ∉ map fst result) ∧ allowed k = true ∧
          Forall (λ y, JsObject.precedes k y = false) (map fst result)) →
    entries_forEach entries_of allowed
      (map (λ kv, (kv.1, Direct (IsPrimitive kv.2))) ps) result
      = Some (result ++ truthy_properties ps).
Proof.
  induction ps as [|[k p] ps IH]; intros result Hnd Hen Hks; simpl.
  { by rewrite app_nil_r. }
  apply NoDup_cons in Hnd as [Hk Hnd].
  simpl in Hen. apply andb_true_iff in Hen as [Hafter Hen].
  destruct (Hks k ltac:(by left)) as (Hfresh & -> & Hlast).
  assert (∀ k', k' ∈ map fst ps →
                (k' ∉ map fst result) ∧ allowed k' = true ∧
                Forall (λ y, JsObject.precedes k' y = false) (map fst result))
    as Hks'.
  { intros k' Hk'. apply Hks. by right. }
  unfold truthy_properties.
  destruct (truthy p) eqn:Hp;
    [|rewrite filter_cons_False by (simpl; intros [? _]; congruence);
      by apply IH].
  destruct (decide (k = "__proto__")) as [->|Hproto].
  { rewrite filter_cons_False by (simpl; by intros [_ ?]). by apply IH. }
  rewrite filter_cons_True by done. simpl.
  rewrite (object_set_last _ _ _ Hproto Hfresh Hlast), IH;
    [by rewrite <- app_assoc|done|done|].
  intros k' Hk'. destruct (Hks' k' Hk') as (Hr & Ha & Hl).
  rewrite map_app. simpl. split_and!; [|done|].
  - rewrite elem_of_app, list_elem_of_singleton. intros [?| ->]; done.
  - apply Forall_app. split; [done|]. apply Forall_singleton.
    rewrite forallb_forall in Hafter.
    apply negb_true_iff, Hafter, list_elem_of_In, Hk'.
Qed.

(** X11.  [writeEntries] of an object of primitives, whose distinct
    colon-free keys, in the order of enumeration, may all be written and
    read, on a store without entries, followed by [entries()]: the result is
    the object without its properties of falsy value ([0], [NaN], [""],
    [false], [null]) and without a property ["__proto__"], in the same order;
    it is the object itself when every value is truthy and no key is
    ["__proto__"]. *)
Theorem writeEntries_then_entries
    (h : Heap) (this : loc) (ps : list (string * JSONPrimitive)) (depth : nat) :
  this < length h →
  storeEntries (deref h this) = [] →
  NoDup (map fst ps) →
  enumerated (map fst ps) = true →
  Forall (λ kv, split colon kv.1 = [kv.1] ∧
                allowedToWrite (deref h this) kv.1 = true ∧
                allowedToRead (deref h this) kv.1 = true) ps →
  ∃ h',
    writeEntries this (map (λ kv, (kv.1, JPrimitive kv.2)) ps) h
      = (h', Return tt) ∧
    entries (S depth) h' this = Some (truthy_properties ps) ∧
    (∀ p, ("__proto__", p) ∈ ps →
          read h' this (Some "__proto__") = Return (IsPrimitive p) ∧
          JsMap.get (truthy_properties ps) "__proto__" = None) ∧
    (Forall (λ kv, truthy kv.2 = true ∧ kv.1 ≠ "__proto__") ps →
     entries (S depth) h' this = Some (map (λ kv, (kv.1, JPrimitive kv.2)) ps)).
Proof.
  intros Hlt Hempty Hnd Hen Hall.
  destruct (writeEntries_primitives this ps h Hlt Hnd) as (h' & Hrun & Hthis).
  { intros k _. rewrite Hempty. apply not_elem_of_nil. }
  { eapply Forall_impl; [exact Hall|]. by intros ? (? & ? & ?). }
  assert (entries (S depth) h' this = Some (truthy_properties ps)) as Hentries.
  { simpl. rewrite Hthis, Hempty. simpl.
    apply (entries_forEach_primitives _ _ ps []); [done..|].
    intros k Hk. split_and!; [apply not_elem_of_nil| |done].
    apply list_elem_of_fmap in Hk as ([k' p] & -> & Hin).
    rewrite Forall_forall in Hall. by destruct (Hall _ Hin) as (_ & _ & ?). }
  exists h'. split_and!; [done..| |].
  - intros p Hin. split.
    + rewrite Forall_forall in Hall. destruct (Hall _ Hin) as (_ & _ & Hr).
      simpl in Hr. unfold read. change (split colon "__proto__") with ["__proto__"].
      cbn [read_parts]. rewrite Hthis, Hempty.
      change (allowedToRead _ "__proto__")
        with (allowedToRead (deref h this) "__proto__").
      rewrite Hr. cbn [negb]. unfold storeEntries_get. cbn [storeEntries app].
      assert (JsMap.get (map (λ kv, (kv.1, Direct (IsPrimitive kv.2))) ps)
                "__proto__" = Some (Direct (IsPrimitive p))) as ->; [|done].
      clear -Hnd Hin. induction ps as [|[k0 p0] ps IH]; [by apply elem_of_nil in Hin|].
      apply NoDup_cons in Hnd as [Hk0 Hnd].
      apply elem_of_cons in Hin as [[= <- <-]|Hin]; simpl; [done|].
      destruct (String.eqb k0 "__proto__") eqn:Hk; [|by apply IH].
      apply String.eqb_eq in Hk as ->. destruct Hk0.
      apply list_elem_of_fmap. by exists ("__proto__", p).
    + apply get_None_keys. unfold truthy_properties.
      rewrite <- list_fmap_compose. intros ([k0 p0] & Hk0 & Hin0)%list_elem_of_fmap.
      apply list_elem_of_filter in Hin0 as [[_ Hne] _]. simpl in *. congruence.
  - intros Htruthy. rewrite Hentries. f_equal. unfold truthy_properties.
    f_equal. clear -Htruthy.
    induction Htruthy as [|kv ps Hkv _ IH]; [done|].
    by rewrite filter_cons_True, IH.
Qed.

Lemma writeEntries_then_entries_witness :
  let ps := [("7", JNumber 1); ("a", JNumber 1); ("__proto__", JNumber 2);
             ("b", JNumber 0); ("c", JString "x")] in
  ∃ h',
    writeEntries 0 (map (λ kv, (kv.1, JPrimitive kv.2)) ps) [new_Store]
      = (h', Return tt) ∧
    entries 1 h' 0
      = Some [("7", JPrimitive (JNumber 1)); ("a", JPrimitive (JNumber 1));
              ("c", JPrimitive (JString "x"))] ∧
    read h' 0 (Some "__proto__") = Return (IsPrimitive (JNumber 2)).
Proof.
  intros ps.
  destruct (writeEntries_then_entries [new_Store] 0 ps 0
              ltac:(simpl; lia) eq_refl)
    as (h' & Hrun & Hentries & Hproto & _).
  { exact (bool_decide_unpack (NoDup ["7"; "a"; "__proto__"; "b"; "c"]) I). }
  { reflexivity. }
  { by repeat constructor. }
  exists h'. split_and!; [exact Hrun|exact Hentries|].
  exact (proj1 (Hproto (JNumber 2) ltac:(right; right; left))).
Defined.

(** ** [entries] *)

(** X12.  What [entries()] returns, for a store with one entry per key.  It
    returns when the calls of [entries()] on the stores that readable keys
    hold or yield do.  The object has one own property per key, the keys that
    are array indices first and in ascending order, the other keys in the order
    of the entries of the store.  It has no own property under a key that the
    store does not allow to read, under a key without entry, or under
    ["__proto__"]; under any other readable key it holds the [entries()] of
    the store that the value is or yields, or the primitive that the value is
    or yields when that primitive is truthy, and nothing when the value is, or
    yields, a falsy primitive or [undefined]. *)
Theorem entries_of_store (depth : nat) (h : Heap) (this : loc) :
  NoDup (map fst (storeEntries (deref h this))) →
  (∀ key value store,
     (key, value) ∈ storeEntries (deref h this) →
     allowedToRead (deref h this) key = true →
     resolves value = Some store →
     is_Some (entries depth h store)) →
  ∃ o,
    entries (S depth) h this = Some o ∧
    NoDup (map fst o) ∧
    enumerated (map fst o) = true ∧
    string_keys (map fst o) `sublist_of` map fst (storeEntries (deref h this)) ∧
    JsMap.get o "__proto__" = None ∧
    (∀ key, allowedToRead (deref h this) key = false → JsMap.get o key = None) ∧
    (∀ key, JsMap.get (storeEntries (deref h this)) key = None →
            JsMap.get o key = None) ∧
    (∀ key value,
       key ≠ "__proto__" →
       allowedToRead (deref h this) key = true →
       JsMap.get (storeEntries (deref h this)) key = Some value →
       JsMap.get o key =
         match call value with
         | IsStore store => JObject <$> entries depth h store
         | IsPrimitive p => if truthy p then Some (JPrimitive p) else None
         | IsUndefined => None
         end).
Proof.
  intros Hnd Hcalls.
  destruct (entries_forEach_returns (entries depth h)
              (allowedToRead (deref h this)) (storeEntries (deref h this))
              Hcalls []) as [o Ho].
  change (entries (S depth) h this = Some o) in Ho.
  pose proof (entries_get depth h this o Hnd Ho) as Hget.
  destruct (entries_forEach_keys _ _ _ _ _ Ho (NoDup_nil_2 : NoDup (map fst []))
              eq_refl) as (Hkeys & Hen & created & Hcreated & Hsub).
  exists o. split_and!; [done..| | | | |].
  - by rewrite Hcreated.
  - rewrite Hget. simpl. by rewrite andb_false_r.
  - intros key Hr. by rewrite Hget, Hr.
  - intros key Hnone. rewrite Hget, Hnone. by destruct (_ && _).
  - intros key value Hkey%String.eqb_neq Hr Hsome.
    rewrite Hget, Hr, Hkey, Hsome. unfold assigned. simpl.
    destruct (call value) as [store|p|]; [|by destruct (truthy p)|done].
    by destruct (entries depth h store).
Qed.

Lemma entries_of_store_witness :
  let h := [mkStore Perm_rw [("w", Perm_w)]
              [("w", Direct (IsPrimitive (JNumber 1)));
               ("f", Deferred (IsStore 1));
               ("n", Direct (IsPrimitive JNull));
               ("__proto__", Direct (IsPrimitive (JNumber 3)));
               ("10", Direct (IsPrimitive (JString "x")));
               ("9", Direct (IsPrimitive (JString "y")))];
            mkStore Perm_rw [] [("k", Direct (IsPrimitive (JBoolean true)))]] in
  ∃ o, entries 2 h 0 = Some o ∧
       map fst o = ["9"; "10"; "f"] ∧
       JsMap.get o "w" = None ∧
       JsMap.get o "n" = None ∧
       JsMap.get o "__proto__" = None ∧
       JsMap.get o "f" = Some (JObject [("k", JPrimitive (JBoolean true))]).
Proof.
  intros h.
  destruct (entries_of_store 1 h 0) as (o & Ho & _ & _ & _ & Hproto & Hdenied & _ & Hvalue).
  { exact (bool_decide_unpack (NoDup ["w"; "f"; "n"; "__proto__"; "10"; "9"]) I). }
  { intros key value store Hin _ Hres.
    repeat (apply elem_of_cons in Hin as [[= -> ->]|Hin]);
      simplify_eq/=; try by eexists.
    by apply elem_of_nil in Hin. }
  exists o. split_and!.
  - exact Ho.
  - by injection Ho as <-.
  - exact (Hdenied "w" eq_refl).
  - exact (Hvalue "n" _ ltac:(discriminate) eq_refl eq_refl).
  - exact Hproto.
  - exact (Hvalue "f" _ ltac:(discriminate) eq_refl eq_refl).
Defined.

Lemma entries_forEach_None entries_of allowed key value store m :
  (key, value) ∈ m →
  allowed key = true →
  resolves value = Some store →
  entries_of store = None →
  ∀ result, entries_forEach entries_of allowed m result = None.
Proof.
  intros Hin Ha Hres Hnone.
  induction m as [|[k0 v0] m IH]; intros result; [by apply elem_of_nil in Hin|].
  apply elem_of_cons in Hin as [[= <- <-]|Hin].
  - simpl. rewrite Ha.
    by destruct value as [[]|[]]; simplify_eq/=; rewrite Hnone.
  - specialize (IH Hin). simpl.
    destruct (allowed k0); [|done].
    destruct v0 as [[s|p|]|[s|p|]];
      try destruct (entries_of s); try destruct (truthy p); done.
Qed.

(** X13.  [entries()] does not return on a store that holds itself: when a
    readable key of the store holds the store, or a function that yields it,
    the calls of [entries()] nest without end, so no bound on the nesting
    gives a result. *)
Theorem entries_of_self_holding_store
    (depth : nat) (h : Heap) (this : loc) (key : string) (value : Entry) :
  (key, value) ∈ storeEntries (deref h this) →
  resolves value = Some this →
  allowedToRead (deref h this) key = true →
  entries depth h this = None.
Proof.
  intros Hin Hres Hr. induction depth as [|depth IH]; [done|].
  simpl. by eapply entries_forEach_None.
Qed.

Lemma entries_of_self_holding_store_witness :
  entries 1000 (write 0 (Some "a") (OfFunction (IsStore 0)) [new_Store]).1 0 = None.
Proof.
  apply (entries_of_self_holding_store 1000 _ 0 "a" (Deferred (IsStore 0)));
    [left|reflexivity|reflexivity].
Defined.

(** ** The flattened map *)

Section JsMap_lookup.
Context {V : Type}.
Implicit Types (m src dst : list (string * V)) (k : string) (v : V).

Lemma get_app m1 m2 k :
  JsMap.get (m1 ++ m2) k =
    match JsMap.get m1 k with
    | Some v => Some v
    | None => JsMap.get m2 k
    end.
Proof.
  induction m1 as [|[k0 v0] m1 IH]; simpl; [done|].
  by destruct (String.eqb k0 k).
Qed.

Lemma get_set m k v k' :
  JsMap.get (JsMap.set m k v) k' =
    if String.eqb k k' then Some v else JsMap.get m k'.
Proof.
  destruct (String.eqb k k') eqn:Hk.
  - apply String.eqb_eq in Hk as <-. apply get_set_eq.
  - apply String.eqb_neq in Hk. by apply get_set_ne.
Qed.

(** Of the bindings that [set_all] copies, the last one of a key stays. *)
Lemma get_set_all src dst k :
  JsMap.get (JsMap.set_all src dst) k =
    match JsMap.get (rev src) k with
    | Some v => Some v
    | None => JsMap.get dst k
    end.
Proof.
  unfold JsMap.set_all. revert dst.
  induction src as [|[k0 v0] src IH]; intros dst; simpl; [done|].
  rewrite IH, get_app, get_set. simpl.
  by destruct (JsMap.get (rev src) k), (String.eqb k0 k).
Qed.

Lemma elem_of_keys_set m k v x :
  x ∈ map fst (JsMap.set m k v) → x = k ∨ x ∈ map fst m.
Proof.
  induction m as [|[k0 v0] m IH]; simpl.
  - intros ->%list_elem_of_singleton. by left.
  - destruct (String.eqb k0 k) eqn:Hk; simpl.
    + apply String.eqb_eq in Hk as ->.
      intros [->|Hin]%elem_of_cons; [by left|right; by right].
    + intros [->|Hin]%elem_of_cons; [right; by left|].
      destruct (IH Hin); [by left|right; by right].
Qed.

(** A map keeps one binding per key. *)
Lemma NoDup_keys_set m k v :
  NoDup (map fst m) → NoDup (map fst (JsMap.set m k v)).
Proof.
  induction m as [|[k0 v0] m IH]; simpl; [intros _; apply NoDup_singleton|].
  intros [Hk0 Hnd]%NoDup_cons.
  destruct (String.eqb k0 k) eqn:Hk; simpl.
  - apply String.eqb_eq in Hk as ->. by apply NoDup_cons.
  - apply NoDup_cons. split; [|by apply IH].
    intros [->|Hin]%elem_of_keys_set; [|done].
    by rewrite String.eqb_refl in Hk.
Qed.

Lemma NoDup_keys_set_all src dst :
  NoDup (map fst dst) → NoDup (map fst (JsMap.set_all src dst)).
Proof.
  unfold JsMap.set_all. revert dst.
  induction src as [|[k v] src IH]; intros dst Hnd; simpl; [done|].
  by apply IH, NoDup_keys_set.
Qed.

Lemma get_rev m k : NoDup (map fst m) → JsMap.get (rev m) k = JsMap.get m k.
Proof.
  induction m as [|[k0 v0] m IH]; simpl; [done|].
  intros [Hk0 Hnd]%NoDup_cons. rewrite get_app, (IH Hnd). simpl.
  destruct (String.eqb k0 k) eqn:Hk.
  - apply String.eqb_eq in Hk as <-. by rewrite (get_not_key _ _ Hk0).
  - by destruct (JsMap.get m k).
Qed.
End JsMap_lookup.

Lemma flatten_NoDup obj currentPath :
  NoDup (map fst (getAllPathFromJsonValue obj currentPath)).
Proof.
  destruct obj as [p|items|fields].
  - apply NoDup_singleton.
  - change (getAllPathFromJsonValue (JArray items) currentPath)
      with (flatten_items currentPath items 0 []).
    generalize 0. generalize (NoDup_nil_2 (A:=string)).
    change (@nil string) with (map fst (@nil (string * JSONPrimitive))).
    generalize (@nil (string * JSONPrimitive)).
    induction items as [|item items IH]; intros result Hnd index; simpl; [done|].
    by apply IH, NoDup_keys_set_all.
  - change (getAllPathFromJsonValue (JObject fields) currentPath)
      with (flatten_fields currentPath fields []).
    generalize (NoDup_nil_2 (A:=string)).
    change (@nil string) with (map fst (@nil (string * JSONPrimitive))).
    generalize (@nil (string * JSONPrimitive)).
    induction fields as [|[key value] fields IH]; intros result Hnd; simpl;
      [done|].
    by apply IH, NoDup_keys_set_all.
Qed.

Lemma leaf_paths_under key obj currentPath :
  map (λ leaf, (join colon (currentPath ++ leaf.1), leaf.2))
    (map (λ leaf, (key :: leaf.1, leaf.2)) (leaves obj))
  = leaf_paths obj (currentPath ++ [key]).
Proof.
  unfold leaf_paths. rewrite map_map. apply map_ext. intros [keys p]. simpl.
  by rewrite <- app_assoc.
Qed.

Lemma flatten_get obj :
  ∀ currentPath path,
    JsMap.get (getAllPathFromJsonValue obj currentPath) path
      = JsMap.get (rev (leaf_paths obj currentPath)) path.
Proof.
  induction obj as [p0|items IH|fields IH] using JSONValue_nested_ind;
    intros cur path.
  - unfold leaf_paths. simpl. by rewrite app_nil_r.
  - change (getAllPathFromJsonValue (JArray items) cur)
      with (flatten_items cur items 0 []).
    unfold leaf_paths. change (leaves (JArray items)) with (leaves_items items 0).
    assert (∀ index result,
              JsMap.get (flatten_items cur items index result) path =
                match JsMap.get
                        (rev (map (λ leaf, (join colon (cur ++ leaf.1), leaf.2))
                                (leaves_items items index))) path with
                | Some v => Some v
                | None => JsMap.get result path
                end) as Hloop.
    { induction IH as [|item items Hitem _ IHitems]; intros index result; simpl;
        [done|].
      rewrite IHitems, map_app, rev_app_distr, get_app, leaf_paths_under.
      rewrite get_set_all, (get_rev _ _ (flatten_NoDup _ _)), Hitem.
      by destruct (JsMap.get (rev (map _ (leaves_items items (S index)))) path). }
    rewrite Hloop. by destruct (JsMap.get _ path).
  - change (getAllPathFromJsonValue (JObject fields) cur)
      with (flatten_fields cur fields []).
    unfold leaf_paths. change (leaves (JObject fields)) with (leaves_fields fields).
    assert (∀ result,
              JsMap.get (flatten_fields cur fields result) path =
                match JsMap.get
                        (rev (map (λ leaf, (join colon (cur ++ leaf.1), leaf.2))
                                (leaves_fields fields))) path with
                | Some v => Some v
                | None => JsMap.get result path
                end) as Hloop.
    { induction IH as [|[key value] fields Hvalue _ IHfields]; intros result;
        simpl; [done|].
      rewrite IHfields, map_app, rev_app_distr, get_app, leaf_paths_under.
      rewrite get_set_all, (get_rev _ _ (flatten_NoDup _ _)), Hvalue.
      by destruct (JsMap.get (rev (map _ (leaves_fields fields))) path). }
    rewrite Hloop. by destruct (JsMap.get _ path).
Qed.

(** X14.  The map that [getAllPathFromJsonValue] returns has one binding per
    path, and what it binds to a path is the primitive of the last leaf, in
    the order of enumeration, whose colon-joined keys and indices (after
    [currentPath]) are that path; a path that no leaf has is not bound.  So
    when two leaves flatten to the same path, as in the object with the
    properties ["a:b"] and then ["a"] holding a ["b"], the later one wins. *)
Theorem flatten_binds_last_leaf (obj : JSONValue) (currentPath : list string) :
  NoDup (map fst (getAllPathFromJsonValue obj currentPath)) ∧
  (∀ path,
     JsMap.get (getAllPathFromJsonValue obj currentPath) path
       = JsMap.get (rev (leaf_paths obj currentPath)) path) ∧
  getAllPathFromJsonValue
    (JObject [("a:b", JPrimitive (JNumber 1));
              ("a", JObject [("b", JPrimitive (JNumber 2))])]) []
    = [("a:b", JNumber 2)].
Proof. split_and!; [apply flatten_NoDup|apply flatten_get|done]. Qed.

(** ** The accessor installed by [Restrict] *)

Lemma Restrict_set_stored key value this h :
  this < length h →
  ∃ h',
    Restrict_set key value this h = (h', Return tt) ∧
    deref h' this = with_entry key (stored value h) (deref h this) ∧
    (∀ l, l < length h → l ≠ this → h' !! l = h !! l).
Proof.
  intros Hlt.
  assert (∀ json,
            ∃ h', write_composite json key this h = (h', Return tt) ∧
                  deref h' this
                    = with_entry key (Direct (IsStore (length h))) (deref h this) ∧
                  (∀ l, l < length h → l ≠ this → h' !! l = h !! l)) as Hcomposite.
  { intros json.
    destruct (write_composite_returns json key this h) as (h1 & -> & Ht & Hlen).
    assert (∀ l, l < length h → h1 !! l = h !! l) as Hold.
    { intros l Hl. rewrite <- (lookup_take_lt h1 (length h) l Hl).
      by rewrite Ht. }
    eexists. split_and!; [done| |].
    - rewrite deref_alter_eq by lia. by rewrite (deref_lookup _ _ _ (Hold this Hlt)).
    - intros l Hl Hne. rewrite list_lookup_alter_ne by done. by apply Hold. }
  destruct value as [fields|items|result|yields]; simpl;
    [apply Hcomposite..| |];
    (eexists; split_and!;
       [done|by apply deref_alter_eq
       |by intros l _ Hne; apply list_lookup_alter_ne]).
Qed.

(** X15.  Assigning to a property decorated with [Restrict] never throws
    and looks at no permission: the value goes under the key as [write]
    would put it (as it is, or expanded into a new store when it is an object
    or array), other stores being left as they were.  Where the store allows
    writing the key, [write] does the same; where it does not, [write] throws
    and changes nothing, while the assignment still stores the value. *)
Theorem Restrict_set_ignores_permissions
    (h : Heap) (this : loc) (key : string) (value : StoreValue) :
  this < length h →
  split colon key = [key] →
  ∃ h',
    Restrict_set key value this h = (h', Return tt) ∧
    deref h' this = with_entry key (stored value h) (deref h this) ∧
    (∀ l, l < length h → l ≠ this → h' !! l = h !! l) ∧
    write this (Some key) value h =
      if allowedToWrite (deref h this) key
      then (h', Return value)
      else (h, Throw (WriteAccessDenied key)).
Proof.
  intros Hlt Hkey.
  destruct (Restrict_set_stored key value this h Hlt) as (h' & Hset & Hthis & Hframe).
  exists h'. split_and!; [done..|].
  unfold write, bind. rewrite Hkey. cbn [write_parts]. unfold write_value.
  destruct (allowedToWrite (deref h this) key); simpl; [|done].
  by destruct value; simpl in Hset; rewrite Hset.
Qed.

Lemma Restrict_set_ignores_permissions_witness :
  let h := [mkStore Perm_r [] []] in
  Restrict_set "k" (primitive (JNumber 1)) 0 h
    = ([mkStore Perm_r [] [("k", Direct (IsPrimitive (JNumber 1)))]], Return tt) ∧
  write 0 (Some "k") (primitive (JNumber 1)) h = (h, Throw (WriteAccessDenied "k")).
Proof.
  intros h.
  destruct (Restrict_set_ignores_permissions h 0 "k" (primitive (JNumber 1))
              ltac:(simpl; lia) eq_refl) as (h' & Hset & _ & _ & Hwrite).
  split; [reflexivity|exact Hwrite].
Defined.

(** ** References stay within the heap *)

Lemma heap_wf_with_entry h this key value :
  heap_wf h →
  (∀ store, as_Store value = Some store → store < length h) →
  heap_wf (alter (with_entry key value) this h).
Proof.
  intros Hwf Hvalue l k store. rewrite length_alter.
  destruct (decide (this = l)) as [->|Hne];
    [|rewrite deref_alter_ne by done; apply Hwf].
  destruct (decide (l < length h)) as [Hlt|Hge].
  - rewrite deref_alter_eq by done.
    destruct (decide (key = k)) as [->|Hk].
    + rewrite get_with_entry_eq. apply Hvalue.
    + rewrite get_with_entry_ne by done. apply Hwf.
  - rewrite (deref_lookup h); [apply Hwf|].
    rewrite list_lookup_alter_eq. by rewrite lookup_ge_None_2 by lia.
Qed.

Section write_parts_wf.
Variable write_entry : string → loc → M unit.
Hypothesis entry_wf :
  ∀ path this h,
    heap_wf h →
    heap_wf (write_entry path this h).1 ∧
    length h ≤ length (write_entry path this h).1.

Lemma write_parts_wf pathParts :
  ∀ this h,
    heap_wf h →
    heap_wf (write_parts write_entry pathParts this h).1 ∧
    length h ≤ length (write_parts write_entry pathParts this h).1.
Proof.
  induction pathParts as [|head rest IH]; intros this h Hwf; [done|].
  destruct (decide (rest = [])) as [->|Hne]; [by apply entry_wf|].
  rewrite write_parts_cons by done. unfold bind.
  destruct (as_Store (storeEntries_get (deref h this) head))
    as [store|] eqn:He; simpl.
  - destruct (IH store h Hwf) as [Hwf1 Hlen1].
    destruct (write_parts write_entry rest store h) as [h1 [[]|e]]; simpl in *;
      [|done].
    rewrite length_alter. split; [|done].
    apply heap_wf_with_entry; [done|]. intros ? [= <-].
    pose proof (Hwf _ _ _ He). lia.
  - destruct (allowedToWrite (deref h this) head); simpl; [|done].
    destruct (IH (length h) (h ++ [new_Store]) (heap_wf_new _ Hwf))
      as [Hwf1 Hlen1].
    rewrite length_app in Hlen1. simpl in Hlen1.
    destruct (write_parts write_entry rest (length h) (h ++ [new_Store]))
      as [h1 [[]|e]]; simpl in *; [|split; [done|lia]].
    rewrite length_alter. split; [|lia].
    apply heap_wf_with_entry; [done|]. intros ? [= <-]. lia.
Qed.
End write_parts_wf.

Lemma write_direct_wf value path this h :
  (∀ store, as_Store value = Some store → store < length h) →
  heap_wf h →
  heap_wf (write_direct value path this h).1 ∧
  length h ≤ length (write_direct value path this h).1.
Proof.
  intros Hvalue Hwf. unfold write_direct.
  destruct (allowedToWrite (deref h this) path); simpl; [|done].
  rewrite length_alter. split; [by apply heap_wf_with_entry|done].
Qed.

Lemma write_direct_primitive_wf p path this h :
  heap_wf h →
  heap_wf (write_direct (Direct (IsPrimitive p)) path this h).1 ∧
  length h ≤ length (write_direct (Direct (IsPrimitive p)) path this h).1.
Proof. apply write_direct_wf. intros store Hs. simpl in Hs. discriminate. Qed.

Lemma write_composite_wf json path this h :
  heap_wf h →
  heap_wf (write_composite json path this h).1 ∧
  length h ≤ length (write_composite json path this h).1.
Proof.
  intros Hwf. unfold write_composite, bind. simpl.
  assert (∀ (m : PathValueMap) h0,
            heap_wf h0 →
            heap_wf (forEach m (λ kv, write_primitive (length h) kv.1 kv.2) h0).1 ∧
            length h0
              ≤ length (forEach m (λ kv, write_primitive (length h) kv.1 kv.2) h0).1)
    as Hloop.
  { induction m as [|[k p] m IH]; intros h0 Hwf0; [done|].
    simpl. unfold bind.
    destruct (write_parts_wf (write_direct (Direct (IsPrimitive p)))
                (write_direct_primitive_wf p)
                (split colon k) (length h) h0 Hwf0) as [Hwf1 Hlen1].
    unfold write_primitive at 1 2 3.
    destruct (write_parts _ (split colon k) (length h) h0) as [h1 [[]|e]];
      simpl in *; [|done].
    destruct (IH h1 Hwf1). split; [done|lia]. }
  destruct (Hloop (getAllPathFromJsonValue json []) (h ++ [new_Store])
              (heap_wf_new _ Hwf)) as [Hwf1 Hlen1].
  rewrite length_app in Hlen1. simpl in Hlen1.
  destruct (forEach _ _ _) as [h1 [[]|e]]; simpl in *; [|split; [done|lia]].
  rewrite length_alter. split; [|lia].
  apply heap_wf_with_entry; [done|]. intros ? [= <-]. lia.
Qed.

(** X16.  [write] keeps every reference within the heap: if every store
    held by an entry is a store of the heap, and the value written, when it
    is a store, is one too, then the same holds after the [write], whatever
    its path and outcome.  Every heap that the module builds from new stores
    therefore satisfies [heap_wf]. *)
Theorem write_keeps_references_valid
    (h : Heap) (this : loc) (path : option string) (value : StoreValue) :
  heap_wf h →
  (∀ store, value = OfResult (IsStore store) → store < length h) →
  heap_wf (write this path value h).1.
Proof.
  intros Hwf Hvalue. destruct path as [path|]; simpl; [|done]. unfold bind.
  assert (∀ p t h0,
            heap_wf h0 → length h ≤ length h0 →
            heap_wf (write_value value p t h0).1 ∧
            length h0 ≤ length (write_value value p t h0).1) as Hentry.
  { intros p t h0 Hwf0 Hlen0. unfold write_value.
    destruct (allowedToWrite (deref h0 t) p); simpl; [|done].
    destruct value as [fields|items|result|yields];
      [by apply write_composite_wf..| |];
      simpl; rewrite length_alter; (split; [|done]);
      apply heap_wf_with_entry; try done.
    intros store Hs. apply as_Store_Some in Hs as [= ->].
    specialize (Hvalue store eq_refl). lia. }
  assert (∀ pathParts t h0,
            heap_wf h0 → length h ≤ length h0 →
            heap_wf (write_parts (write_value value) pathParts t h0).1 ∧
            length h0 ≤ length (write_parts (write_value value) pathParts t h0).1)
    as Hparts.
  { induction pathParts as [|head rest IH]; intros t h0 Hwf0 Hlen0; [done|].
    destruct (decide (rest = [])) as [->|Hne]; [by apply Hentry|].
    rewrite write_parts_cons by done. unfold bind.
    destruct (as_Store (storeEntries_get (deref h0 t) head))
      as [store|] eqn:He; simpl.
    - destruct (IH store h0 Hwf0 Hlen0) as [Hwf1 Hlen1].
      destruct (write_parts _ rest store h0) as [h1 [[]|e]]; simpl in *; [|done].
      rewrite length_alter. split; [|done].
      apply heap_wf_with_entry; [done|]. intros ? [= <-].
      pose proof (Hwf0 _ _ _ He). lia.
    - destruct (allowedToWrite (deref h0 t) head); simpl; [|done].
      destruct (IH (length h0) (h0 ++ [new_Store]) (heap_wf_new _ Hwf0))
        as [Hwf1 Hlen1]; [rewrite length_app; lia|].
      rewrite length_app in Hlen1. simpl in Hlen1.
      destruct (write_parts _ rest (length h0) (h0 ++ [new_Store]))
        as [h1 [[]|e]]; simpl in *; [|split; [done|lia]].
      rewrite length_alter. split; [|lia].
      apply heap_wf_with_entry; [done|]. intros ? [= <-]. lia. }
  destruct (Hparts (split colon path) this h Hwf ltac:(done)) as [Hwf1 _].
  by destruct (write_parts _ _ _ _) as [h1 [[]|e]].
Qed.

Lemma write_keeps_references_valid_witness :
  heap_wf (write 0 (Some "a:b") (OfResult (IsStore 0)) [new_Store]).1.
Proof.
  apply write_keeps_references_valid.
  - by apply heap_wfb_wf.
  - intros store [= <-]. simpl. lia.
Defined.
